(** * mysql.hpp: a shallow embedding of the wrapper and its properties

    The header wraps the MySQL C client library in four classes
    ([mysql], [Stmt], [Row], [Result]) and one free function
    ([escape_string]).  Data model used throughout (LP64, as on the Linux
    targets that ship [<mysql/mysql.h>]):
    - [size_t], [unsigned long], [my_ulonglong] are 64-bit unsigned,
      [int] is 32-bit two's complement; both wrap-arounds are written out;
    - a [std::string] is a list of 8-bit characters ([ascii]);
    - a native pointer is an [option]: [None] is the null pointer.

    Embedded: [escape_string]; of [mysql], every member; of [Stmt], [Row]
    and [Result], the constructors, destructors, move operations, boolean
    conversions, [bind_param] and [fetch_row].  [Stmt::execute],
    [Row::operator[]] and [Result::fetch_array] read native memory and are
    not used by the properties below. *)

From Stdlib Require Import ZArith Ascii String List Lia.
From stdpp Require Import base option list gmap.

Local Open Scope Z_scope.

(** ** Machine integers *)

Definition size_t_modulus : Z := 2 ^ 64.
Definition SIZE_MAX : Z := size_t_modulus - 1.

(** Conversion to [size_t] / [unsigned long]: reduction modulo 2^64. *)
Definition to_size_t (z : Z) : Z := z mod size_t_modulus.
Definition to_ulong (z : Z) : Z := z mod size_t_modulus.

Definition INT_MAX : Z := 2 ^ 31 - 1.
Definition INT_MIN : Z := - 2 ^ 31.

(** Conversion to [int]: the value congruent modulo 2^32 in
    [INT_MIN .. INT_MAX]. *)
Definition to_int (z : Z) : Z := (z + 2 ^ 31) mod 2 ^ 32 - 2 ^ 31.

(** ** The string escaper (mysql.hpp, lines 15-38) *)

Module Escaper.

(** Outcome of a computation that may leave through [std::out_of_range],
    the exception of [std::string::at]. *)
Inductive exc (A : Type) : Type :=
| Returned (a : A)
| Threw_out_of_range.
Arguments Returned {A} a.
Arguments Threw_out_of_range {A}.

Definition exc_bind {A B} (m : exc A) (k : A -> exc B) : exc B :=
  match m with
  | Returned a => k a
  | Threw_out_of_range => Threw_out_of_range
  end.

Notation "x <-! m ; k" := (exc_bind m (fun x => k))
  (at level 100, m at next level, right associativity).

Definition chr_quote : ascii := "039"%char.      (* ' *)
Definition chr_dquote : ascii := "034"%char.
Definition chr_backslash : ascii := "092"%char.
Definition chr_nl : ascii := "010"%char.         (* \n *)
Definition chr_cr : ascii := "013"%char.         (* \r *)
Definition chr_tab : ascii := "009"%char.        (* \t *)
Definition chr_vt : ascii := "011"%char.         (* \v *)
Definition chr_ff : ascii := "012"%char.         (* \f *)

Definition ceq (a b : ascii) : bool := Ascii.eqb a b.

(** [val.at(n)] for an index [n] of type [size_t]. *)
Definition at_ (val : list ascii) (n : Z) : exc ascii :=
  if (0 <=? n) && (n <? Z.of_nat (length val)) then
    match val !! Z.to_nat n with
    | Some c => Returned c
    | None => Threw_out_of_range
    end
  else Threw_out_of_range.

(** The labels of the [switch] at line 21. *)
Definition is_case (c : ascii) : bool :=
  ceq c chr_quote || ceq c chr_nl || ceq c chr_cr || ceq c chr_tab
  || ceq c chr_vt || ceq c chr_ff || ceq c chr_backslash || ceq c chr_dquote.

(** Lines 27-32: what is appended for the character itself. *)
Definition escape_form (c : ascii) : list ascii :=
  if ceq c chr_nl then [chr_backslash; "n"%char]
  else if ceq c chr_cr then [chr_backslash; "r"%char]
  else if ceq c chr_tab then [chr_backslash; "t"%char]
  else if ceq c chr_ff then [chr_backslash; "f"%char]
  else if ceq c chr_vt then [chr_backslash; "v"%char]
  else [c].

(** Lines 22-26.  [pev] is a [size_t], so the test [pev >= 0] is the
    comparison below on a value already reduced modulo 2^64. *)
Definition lookback (val : list ascii) (pev : Z) (result : list ascii)
  : exc (list ascii) :=
  if 0 <=? pev then
    p <-! at_ val pev;
    if negb (ceq p chr_backslash) then Returned (result ++ [chr_backslash])
    else Returned result
  else Returned (result ++ [chr_backslash]).

(** One iteration of the loop (lines 19-35) at index [i]. *)
Definition escape_body (val : list ascii) (i : Z) (result : list ascii)
  : exc (list ascii) :=
  let pev := to_size_t (i - 1) in
  c <-! at_ val i;
  if is_case c then
    r <-! lookback val pev result;
    c' <-! at_ val i;
    Returned (r ++ escape_form c')
  else
    c' <-! at_ val i;
    Returned (result ++ [c']).

(** [escape_loop val n i result]: [n] more iterations starting at index
    [i].  The condition [i < val.length()] of line 18 holds for exactly
    the first [val.length()] values of [i], so the loop runs that many
    iterations from 0, unless one of them throws.  (A [std::string] is
    shorter than 2^64 bytes; the properties below carry that bound.) *)
Fixpoint escape_loop (val : list ascii) (n : nat) (i : Z)
    (result : list ascii) : exc (list ascii) :=
  match n with
  | O => Returned result
  | S n' =>
      r <-! escape_body val i result;
      escape_loop val n' (i + 1) r
  end.

Definition escape_string (val : list ascii) : exc (list ascii) :=
  escape_loop val (length val) 0 [].

(** The value of [result] after the first [k] iterations. *)
Definition escape_prefix (val : list ascii) (k : nat) : exc (list ascii) :=
  escape_loop val k 0 [].

(** What one iteration appends at an index after the first, as a function
    of the character [p] before and the character [c] at the index (the
    summary of lines 20-35 used by the proofs below). *)
Definition chunk (p c : ascii) : list ascii :=
  if is_case c then
    (if negb (ceq p chr_backslash) then [chr_backslash] else []) ++ escape_form c
  else [c].

(** The rendering the specification names for the five control
    characters: a backslash and the letter n, r, t, f or v. *)
Definition control_letter (c : ascii) : option ascii :=
  if ceq c chr_nl then Some "n"%char
  else if ceq c chr_cr then Some "r"%char
  else if ceq c chr_tab then Some "t"%char
  else if ceq c chr_ff then Some "f"%char
  else if ceq c chr_vt then Some "v"%char
  else None.

(** The three characters of the first testable property: the quotes and
    the backslash. *)
Definition is_quote_like (c : ascii) : bool :=
  ceq c chr_quote || ceq c chr_dquote || ceq c chr_backslash.

(** Reading a string as escaped text: a backslash that is not itself
    escaped escapes the character after it.  [pending s] tells whether
    [s] ends in such an open backslash; the character at position [p] of
    [s] is escaped when the text before it ends in one. *)
Definition scan (st : bool) (c : ascii) : bool :=
  if st then false else ceq c chr_backslash.

Definition pending (s : list ascii) : bool := fold_left scan s false.

Definition escaped_at (s : list ascii) (p : nat) : bool := pending (take p s).

End Escaper.

(** ** The native client library

    [<mysql/mysql.h>] is an external collaborator.  Every call the wrapper
    makes is recorded in a trace, and the library is a parameter: a
    deterministic environment that answers a call from the history of
    calls so far (the call being answered is the last entry).  A call may
    also bring the process down, which is what the C library does when it
    dereferences a null handle. *)

Module Native.

Definition MYSQL_p : Type := option nat.        (* MYSQL*       *)
Definition MYSQL_STMT_p : Type := option nat.   (* MYSQL_STMT*  *)
Definition MYSQL_RES_p : Type := option nat.    (* MYSQL_RES*   *)
Definition MYSQL_ROW : Type := option nat.      (* char**       *)
Definition lengths_p : Type := option nat.      (* unsigned long* *)

(** The arguments of [mysql::connect]; a [const char*] may be null. *)
Record connect_args : Type := {
  host : option (list ascii);
  user : option (list ascii);
  password : option (list ascii);
  db : option (list ascii);
  port : Z;
  unix_socket : option (list ascii);
  client_flag : Z
}.

Inductive native_call : Type :=
| Call_mysql_init
| Call_mysql_real_connect (h : MYSQL_p) (a : connect_args)
| Call_mysql_error (h : MYSQL_p)
| Call_mysql_close (h : MYSQL_p)
| Call_mysql_ping (h : MYSQL_p)
| Call_mysql_insert_id (h : MYSQL_p)
| Call_mysql_affected_rows (h : MYSQL_p)
| Call_mysql_more_results (h : MYSQL_p)
| Call_mysql_next_result (h : MYSQL_p)
| Call_mysql_use_result (h : MYSQL_p)
| Call_mysql_real_query (h : MYSQL_p) (q : list ascii) (len : Z)
| Call_mysql_stmt_init (h : MYSQL_p)
| Call_mysql_stmt_prepare (st : MYSQL_STMT_p) (q : list ascii) (len : Z)
| Call_mysql_stmt_param_count (st : MYSQL_STMT_p)
| Call_mysql_stmt_close (st : MYSQL_STMT_p)
| Call_mysql_num_fields (r : MYSQL_RES_p)
| Call_mysql_free_result (r : MYSQL_RES_p)
| Call_mysql_fetch_row (r : MYSQL_RES_p)
| Call_mysql_fetch_lengths (r : MYSQL_RES_p).

Definition history : Type := list native_call.

Inductive reply (T : Type) : Type :=
| Returns (v : T)
| Crashes.
Arguments Returns {T} v.
Arguments Crashes {T}.

Record library : Type := {
  mysql_init : history -> reply MYSQL_p;
  mysql_real_connect : history -> reply MYSQL_p;
  mysql_error : history -> reply (list ascii);
  mysql_close : history -> reply unit;
  mysql_ping : history -> reply Z;
  mysql_insert_id : history -> reply Z;
  mysql_affected_rows : history -> reply Z;
  mysql_more_results : history -> reply Z;
  mysql_next_result : history -> reply Z;
  mysql_use_result : history -> reply MYSQL_RES_p;
  mysql_real_query : history -> reply Z;
  mysql_stmt_init : history -> reply MYSQL_STMT_p;
  mysql_stmt_prepare : history -> reply Z;
  mysql_stmt_param_count : history -> reply Z;
  mysql_stmt_close : history -> reply Z;
  mysql_num_fields : history -> reply Z;
  mysql_free_result : history -> reply unit;
  mysql_fetch_row : history -> reply MYSQL_ROW;
  mysql_fetch_lengths : history -> reply lengths_p
}.

(** What the process has done so far: the native calls and the text
    written to [std::cerr]. *)
Record world : Type := {
  trace : history;
  cerr : list ascii
}.

Inductive outcome (A : Type) : Type :=
| Done (a : A) (w : world)
| Crashed (w : world).
Arguments Done {A} a w.
Arguments Crashed {A} w.

Definition M (A : Type) : Type := world -> outcome A.

Definition ret {A} (a : A) : M A := fun w => Done a w.

Definition bind {A B} (m : M A) (k : A -> M B) : M B :=
  fun w => match m w with
           | Done a w' => k a w'
           | Crashed w' => Crashed w'
           end.

(** Undefined behaviour of the wrapper itself (a dangling reference). *)
Definition undefined {A} : M A := fun w => Crashed w.

Definition call {T} (ev : native_call) (answer : history -> reply T) : M T :=
  fun w =>
    let tr := trace w ++ [ev] in
    match answer tr with
    | Returns v => Done v {| trace := tr; cerr := cerr w |}
    | Crashes => Crashed {| trace := tr; cerr := cerr w |}
    end.

(** [std::cerr << s]. *)
Definition print (s : list ascii) : M unit :=
  fun w => Done tt {| trace := trace w; cerr := cerr w ++ s |}.

(** The world a run ends in, however it ends. *)
Definition final_world {A} (o : outcome A) : world :=
  match o with
  | Done _ w => w
  | Crashed w => w
  end.

Definition is_null {A} (p : option A) : bool :=
  match p with
  | Some _ => false
  | None => true
  end.

(** Number of times the result set [h] was handed to
    [mysql_free_result], and the statement [h] to [mysql_stmt_close]. *)
Definition frees_result (h : nat) (ev : native_call) : bool :=
  match ev with
  | Call_mysql_free_result (Some h') => Nat.eqb h' h
  | _ => false
  end.

Definition closes_stmt (h : nat) (ev : native_call) : bool :=
  match ev with
  | Call_mysql_stmt_close (Some h') => Nat.eqb h' h
  | _ => false
  end.

Definition count_calls (f : native_call -> bool) (tr : history) : nat :=
  length (List.filter f tr).

(** From the world [w] to the end of the run [o], exactly one more call
    selected by [f] was made. *)
Definition one_more_call {A} (f : native_call -> bool) (w : world)
    (o : outcome A) : Prop :=
  count_calls f (trace (final_world o)) = S (count_calls f (trace w)).

End Native.

(** ** The wrapper classes (mysql.hpp, lines 40-308)

    A member function takes the object as [this] and, where it assigns to
    a member, returns the updated object.  The mutex of [mysql] is not
    modelled: every run below is a single thread. *)

Module Wrapper.
Import Native.

Notation "x <- m ;; k" := (bind m (fun x => k))
  (at level 100, m at next level, right associativity).
Notation "m ;;; k" := (bind m (fun _ => k))
  (at level 100, right associativity).

(** *** Plain data *)

(** The members of [enum_field_types] the header uses; a
    [memset]-zeroed slot carries the enumerator of value 0. *)
Inductive enum_field_types : Type :=
| MYSQL_TYPE_DECIMAL      (* 0 *)
| MYSQL_TYPE_LONG         (* 3 *)
| MYSQL_TYPE_STRING.      (* 254 *)

(** What a [void*] buffer of a binding points to. *)
Inductive buffer_p : Type :=
| Buffer_null
| Buffer_int (x : Z)                 (* [&x] for a [const int& x] *)
| Buffer_chars (data : list ascii).  (* [x.c_str()] *)

(** The [unsigned long*] of a binding: null, or the address of the
    [buffer_length] member of slot [i] of the same array. *)
Inductive length_p : Type :=
| Length_null
| Length_of_slot (i : Z).

Record MYSQL_BIND : Type := {
  buffer_type : enum_field_types;
  buffer : buffer_p;
  buffer_length : Z;          (* unsigned long *)
  is_null_p : option bool;    (* my_bool* *)
  length_ptr : length_p
}.

Definition zero_bind : MYSQL_BIND :=
  {| buffer_type := MYSQL_TYPE_DECIMAL; buffer := Buffer_null;
     buffer_length := 0; is_null_p := None; length_ptr := Length_null |}.

(** [params] is null or owns an array; [str_length] is never initialised
    by a constructor ([None] stands for the indeterminate value). *)
Record Stmt : Type := {
  stmt : MYSQL_STMT_p;
  count : Z;
  params : option (list MYSQL_BIND);
  str_length : option Z
}.

Record Row : Type := {
  row : MYSQL_ROW;
  lengths : lengths_p
}.

Record Result : Type := {
  res : MYSQL_RES_p;
  num_fields : Z
}.

Record mysql : Type := {
  handle : MYSQL_p
}.

(** *** Stmt (lines 103-181) *)

Definition Stmt_default : Stmt :=
  {| stmt := None; count := 0; params := None; str_length := None |}.

Definition Stmt_bool (this : Stmt) : bool := negb (is_null (stmt this)).

(** [Stmt(Stmt&& x)]: the new object and what is left of [x]. *)
Definition Stmt_move_ctor (x : Stmt) : Stmt * Stmt :=
  ({| stmt := stmt x; count := count x; params := params x;
      str_length := str_length x |},
   {| stmt := None; count := count x; params := None;
      str_length := str_length x |}).

(** [params[i]] as an lvalue: defined only inside the array. *)
Definition slot (this : Stmt) (i : Z) : option MYSQL_BIND :=
  match params this with
  | Some arr => if 0 <=? i then arr !! Z.to_nat i else None
  | None => None
  end.

(** Lines 144-151.  [buffer_length] arrives as an [int] and is stored in
    an [unsigned long] member.  [None]: [params[i]] is outside the array. *)
Definition bind_param (this : Stmt) (i : Z) (bt : enum_field_types)
    (buf : buffer_p) (buffer_length_arg : Z) (is_null_arg : option bool)
    (length_arg : length_p) : option Stmt :=
  match params this, slot this i with
  | Some arr, Some _ =>
      let b := {| buffer_type := bt; buffer := buf;
                  buffer_length := to_ulong buffer_length_arg;
                  is_null_p := is_null_arg; length_ptr := length_arg |} in
      Some {| stmt := stmt this; count := count this;
              params := Some (<[Z.to_nat i := b]> arr);
              str_length := str_length this |}
  | _, _ => None
  end.

(** Lines 153-156. *)
Definition bind_param_int (this : Stmt) (i : Z) (x : Z) : option Stmt :=
  bind_param this i MYSQL_TYPE_LONG (Buffer_int x) (to_int 0) None Length_null.

(** Lines 158-161: [x.size()] is a [size_t] passed for an [int]. *)
Definition bind_param_string (this : Stmt) (i : Z) (x : list ascii)
  : option Stmt :=
  bind_param this i MYSQL_TYPE_STRING (Buffer_chars x)
    (to_int (Z.of_nat (length x))) None (Length_of_slot i).

(** The value a binding's length pointer designates. *)
Definition deref_length (this : Stmt) (p : length_p) : option Z :=
  match p with
  | Length_null => None
  | Length_of_slot j => buffer_length <$> slot this j
  end.

(** *** Row (lines 183-209) *)

Definition Row_default : Row := {| row := None; lengths := None |}.

Definition Row_bool (this : Row) : bool := negb (is_null (row this)).

Definition Row_move_ctor (x : Row) : Row * Row :=
  ({| row := row x; lengths := lengths x |}, Row_default).

(** Running code that may not come back: [Out_of_fuel] is a run cut off
    after the given number of nested calls. *)
Inductive run (A : Type) : Type :=
| Finished (a : A)
| Undefined
| Out_of_fuel.
Arguments Finished {A} a.
Arguments Undefined {A}.
Arguments Out_of_fuel {A}.

Definition run_bind {A B} (m : run A) (k : A -> run B) : run B :=
  match m with
  | Finished a => k a
  | Undefined => Undefined
  | Out_of_fuel => Out_of_fuel
  end.

(** [std::swap(a, b)] for a type with the given move assignment, on a
    store of [Row] objects named by their addresses:
    [T tmp(std::move(a)); a = std::move(b); b = std::move(tmp);] *)
Definition std_swap
    (assign : nat -> nat -> gmap nat Row -> run (gmap nat Row))
    (a b : nat) (st : gmap nat Row) : run (gmap nat Row) :=
  match st !! a with
  | None => Undefined
  | Some ra =>
      let tmp := fresh (dom st) in
      let '(rtmp, ra') := Row_move_ctor ra in
      let st1 := <[tmp := rtmp]> (<[a := ra']> st) in
      run_bind (assign a b st1) (fun st2 =>
      run_bind (assign b tmp st2) (fun st3 =>
      Finished (delete tmp st3)))
  end.

(** Lines 196-200: the unqualified [swap] of [*this] and [x] resolves to
    [std::swap<Row>], whose body assigns with this very operator. *)
Fixpoint Row_move_assign (fuel : nat) (this x : nat) (st : gmap nat Row)
  : run (gmap nat Row) :=
  match fuel with
  | O => Out_of_fuel
  | S fuel' => std_swap (Row_move_assign fuel') this x st
  end.

Section WithLibrary.
Variable lib : library.

(** [Stmt(MYSQL_STMT* stmt)], lines 111-114. *)
Definition Stmt_from (p : MYSQL_STMT_p) : M Stmt :=
  n <- call (Call_mysql_stmt_param_count p) (mysql_stmt_param_count lib) ;;
  let n := to_size_t n in
  ret {| stmt := p; count := n;
         params := Some (replicate (Z.to_nat n) zero_bind);
         str_length := None |}.

(** [~Stmt()]: [delete [] params] makes no native call. *)
Definition Stmt_dtor (this : Stmt) : M unit :=
  if is_null (stmt this) then ret tt
  else (call (Call_mysql_stmt_close (stmt this)) (mysql_stmt_close lib) ;;; ret tt).

(** *** Result (lines 211-271) *)

Definition Result_default : Result := {| res := None; num_fields := 0 |}.

(** [Result(MYSQL_RES* res)]: [mysql_num_fields] returns an
    [unsigned int], stored in an [int]. *)
Definition Result_from (p : MYSQL_RES_p) : M Result :=
  n <- call (Call_mysql_num_fields p) (mysql_num_fields lib) ;;
  ret {| res := p; num_fields := to_int n |}.

Definition Result_move_ctor (r : Result) : Result * Result :=
  ({| res := res r; num_fields := num_fields r |},
   {| res := None; num_fields := num_fields r |}).

Definition Result_dtor (this : Result) : M unit :=
  if is_null (res this) then ret tt
  else call (Call_mysql_free_result (res this)) (mysql_free_result lib).

Definition Result_bool (this : Result) : bool := negb (is_null (res this)).

(** Lines 257-261. *)
Definition fetch_row (this : Result) : M Row :=
  r <- call (Call_mysql_fetch_row (res this)) (mysql_fetch_row lib) ;;
  l <- call (Call_mysql_fetch_lengths (res this)) (mysql_fetch_lengths lib) ;;
  ret {| row := r; lengths := l |}.

(** *** mysql (lines 40-101 and 273-308) *)

Definition mysql_ctor : M mysql :=
  h <- call Call_mysql_init (mysql_init lib) ;;
  ret {| handle := h |}.

Definition close (this : mysql) : M mysql :=
  if is_null (handle this) then ret this
  else (call (Call_mysql_close (handle this)) (mysql_close lib) ;;;
        ret {| handle := None |}).

Definition is_open (this : mysql) : M bool :=
  if is_null (handle this) then ret false
  else (x <- call (Call_mysql_ping (handle this)) (mysql_ping lib) ;;
        ret (x =? 0)).

Definition connect_failed : list ascii :=
  list_ascii_of_string "Failed to connect to database: Error: ".

Definition query_failed : list ascii := list_ascii_of_string "Error: ".

Definition endl : list ascii := [Escaper.chr_nl].

(** Lines 48-62: the result and the object afterwards. *)
Definition connect (this : mysql) (a : connect_args) : M (bool * mysql) :=
  o <- is_open this ;;
  _ <- (if o then close this else ret this) ;;
  h0 <- call Call_mysql_init (mysql_init lib) ;;
  if is_null h0 then ret (false, {| handle := h0 |})
  else (
    h <- call (Call_mysql_real_connect h0 a) (mysql_real_connect lib) ;;
    if negb (is_null h) then ret (true, {| handle := h0 |})
    else (
      msg <- call (Call_mysql_error h0) (mysql_error lib) ;;
      print (connect_failed ++ msg ++ endl) ;;;
      call (Call_mysql_close h0) (mysql_close lib) ;;;
      ret (false, {| handle := None |}))).

(** Lines 77-94: a [my_ulonglong] result is narrowed to the [int] return
    type; a [my_bool] is promoted to it unchanged. *)
Definition insert_id (this : mysql) : M Z :=
  if negb (is_null (handle this)) then
    (v <- call (Call_mysql_insert_id (handle this)) (mysql_insert_id lib) ;;
     ret (to_int v))
  else ret (-1).

Definition affected_rows (this : mysql) : M Z :=
  if negb (is_null (handle this)) then
    (v <- call (Call_mysql_affected_rows (handle this))
            (mysql_affected_rows lib) ;;
     ret (to_int v))
  else ret (-1).

Definition more_results (this : mysql) : M Z :=
  v <- call (Call_mysql_more_results (handle this)) (mysql_more_results lib) ;;
  ret v.

(** Lines 283-288. *)
Definition next_result (this : mysql) : M Z :=
  x <- call (Call_mysql_next_result (handle this)) (mysql_next_result lib) ;;
  ret x.

(** Lines 273-281: the [Result{}] of line 278 is a temporary that is
    built and destroyed on the spot; control then reaches line 280. *)
Definition use_result (this : mysql) : M Result :=
  result <- call (Call_mysql_use_result (handle this)) (mysql_use_result lib) ;;
  (if is_null result then Result_dtor Result_default else ret tt) ;;;
  Result_from result.

(** Lines 290-298. *)
Definition prepare (this : mysql) (s : list ascii) : M Stmt :=
  p <- call (Call_mysql_stmt_init (handle this)) (mysql_stmt_init lib) ;;
  x <- call (Call_mysql_stmt_prepare p s (Z.of_nat (length s)))
         (mysql_stmt_prepare lib) ;;
  if negb (x =? 0) then ret Stmt_default
  else Stmt_from p.

(** Lines 300-308. *)
Definition query (this : mysql) (s : list ascii) : M Result :=
  x <- call (Call_mysql_real_query (handle this) s (Z.of_nat (length s)))
         (mysql_real_query lib) ;;
  if negb (x =? 0) then
    (msg <- call (Call_mysql_error (handle this)) (mysql_error lib) ;;
     print (query_failed ++ msg ++ endl) ;;;
     ret Result_default)
  else use_result this.

(** *** Operators that take two object references

    [operator=(T&& x)] receives [*this] and [x] by reference, and both may
    name one object.  These run on a store of objects named by address;
    each assignment of the body reads and writes the store in turn. *)

Definition set_res (a : nat) (v : MYSQL_RES_p) (objs : gmap nat Result)
  : option (gmap nat Result) :=
  o ← objs !! a;
  Some (<[a := {| res := v; num_fields := num_fields o |}]> objs).

Definition set_num_fields (a : nat) (v : Z) (objs : gmap nat Result)
  : option (gmap nat Result) :=
  o ← objs !! a;
  Some (<[a := {| res := res o; num_fields := v |}]> objs).

(** Lines 233-239. *)
Definition Result_move_assign (this r : nat) (objs : gmap nat Result)
  : M (gmap nat Result) :=
  match objs !! this with
  | None => undefined
  | Some t =>
      call (Call_mysql_free_result (res t)) (mysql_free_result lib) ;;;
      match (x ← objs !! r;
             objs1 ← set_res this (res x) objs;
             x1 ← objs1 !! r;
             objs2 ← set_num_fields this (num_fields x1) objs1;
             set_res r None objs2) with
      | Some objs3 => ret objs3
      | None => undefined
      end
  end.

(** The end of the lifetime of the object at [a]. *)
Definition Result_destroy (a : nat) (objs : gmap nat Result)
  : M (gmap nat Result) :=
  match objs !! a with
  | None => undefined
  | Some o => Result_dtor o ;;; ret (delete a objs)
  end.

Definition Stmt_destroy (a : nat) (objs : gmap nat Stmt)
  : M (gmap nat Stmt) :=
  match objs !! a with
  | None => undefined
  | Some o => Stmt_dtor o ;;; ret (delete a objs)
  end.

(** Both objects reach the end of their lifetime, in the given order. *)
Definition Result_destroy_both (first second : nat) (objs : gmap nat Result)
  : M (gmap nat Result) :=
  objs1 <- Result_destroy first objs ;; Result_destroy second objs1.

Definition Stmt_destroy_both (first second : nat) (objs : gmap nat Stmt)
  : M (gmap nat Stmt) :=
  objs1 <- Stmt_destroy first objs ;; Stmt_destroy second objs1.

End WithLibrary.

(** Lines 129-137: six member assignments, no native call. *)
Definition Stmt_move_assign (this x : nat) (objs : gmap nat Stmt)
  : option (gmap nat Stmt) :=
  t ← objs !! this; s ← objs !! x;
  let objs1 := <[this := {| stmt := stmt s; count := count t;
                            params := params t;
                            str_length := str_length t |}]> objs in
  t ← objs1 !! this; s ← objs1 !! x;
  let objs2 := <[this := {| stmt := stmt t; count := count s;
                            params := params t;
                            str_length := str_length t |}]> objs1 in
  t ← objs2 !! this; s ← objs2 !! x;
  let objs3 := <[this := {| stmt := stmt t; count := count t;
                            params := params s;
                            str_length := str_length t |}]> objs2 in
  t ← objs3 !! this; s ← objs3 !! x;
  let objs4 := <[this := {| stmt := stmt t; count := count t;
                            params := params t;
                            str_length := str_length s |}]> objs3 in
  s ← objs4 !! x;
  let objs5 := <[x := {| stmt := None; count := count s;
                         params := params s;
                         str_length := str_length s |}]> objs4 in
  s ← objs5 !! x;
  Some (<[x := {| stmt := stmt s; count := count s; params := None;
                  str_length := str_length s |}]> objs5).

End Wrapper.

(** ** Concrete runs

    A client library that keeps to the contract of the C API, used to run
    the wrapper on concrete inputs: the functions that read through a
    connection or result-set handle bring the process down on a null one
    ([mysql_free_result] and [mysql_close] accept null). *)

Module Scenario.
Import Native Wrapper.

Record settings : Type := {
  connect_ok : bool;
  query_rc : Z;               (* what mysql_real_query returns *)
  prepare_rc : Z;             (* what mysql_stmt_prepare returns *)
  result_set : MYSQL_RES_p    (* what mysql_use_result returns *)
}.

Definition reads_null (ev : native_call) : bool :=
  match ev with
  | Call_mysql_ping None | Call_mysql_insert_id None
  | Call_mysql_affected_rows None | Call_mysql_more_results None
  | Call_mysql_next_result None | Call_mysql_use_result None
  | Call_mysql_real_query None _ _ | Call_mysql_stmt_init None
  | Call_mysql_stmt_prepare None _ _ | Call_mysql_stmt_param_count None
  | Call_mysql_num_fields None | Call_mysql_fetch_row None
  | Call_mysql_fetch_lengths None => true
  | _ => false
  end.

Definition answer {T} (v : T) (tr : history) : reply T :=
  match last tr with
  | Some ev => if reads_null ev then Crashes else Returns v
  | None => Returns v
  end.

Definition gone_away : list ascii :=
  list_ascii_of_string "MySQL server has gone away".

Definition client (cfg : settings) : library :=
  {| mysql_init := answer (Some 1%nat);
     mysql_real_connect :=
       answer (if connect_ok cfg then Some 1%nat else None);
     mysql_error := answer gone_away;
     mysql_close := fun _ => Returns tt;
     mysql_ping := answer 0;
     mysql_insert_id := answer 42;
     mysql_affected_rows := answer 1;
     mysql_more_results := answer 0;
     mysql_next_result := answer (-1);
     mysql_use_result := answer (result_set cfg);
     mysql_real_query := answer (query_rc cfg);
     mysql_stmt_init := answer (Some 7%nat);
     mysql_stmt_prepare := answer (prepare_rc cfg);
     mysql_stmt_param_count := answer 1;
     mysql_stmt_close := fun _ => Returns 0;
     mysql_num_fields := answer 2;
     mysql_free_result := fun _ => Returns tt;
     mysql_fetch_row := answer None;
     mysql_fetch_lengths := answer None |}.

(** A statement that succeeds and has no result set. *)
Definition no_result_set : settings :=
  {| connect_ok := true; query_rc := 0; prepare_rc := 0; result_set := None |}.

(** A server that rejects every statement and every connection. *)
Definition failing : settings :=
  {| connect_ok := false; query_rc := 1; prepare_rc := 1; result_set := None |}.

Definition start : world := {| trace := []; cerr := [] |}.

Definition open_connection : mysql := {| handle := Some 1%nat |}.
Definition closed_connection : mysql := {| handle := None |}.

Definition sql_do : list ascii := list_ascii_of_string "DO 1".

(** Two objects of each owning class, at addresses 0 and 1: an owner of
    the native handle 3 and an empty one. *)
Definition owning_Result : Result := {| res := Some 3%nat; num_fields := 2 |}.

Definition two_Results : gmap nat Result :=
  <[0%nat := owning_Result]> (<[1%nat := Result_default]> ∅).

Definition owning_Stmt : Stmt :=
  {| stmt := Some 3%nat; count := 1; params := Some [zero_bind];
     str_length := None |}.

Definition two_Stmts : gmap nat Stmt :=
  <[0%nat := owning_Stmt]> (<[1%nat := Stmt_default]> ∅).

End Scenario.

(** ** The escaper as a function of the string

    What the loop of [escape_string] computes once its first iteration is
    over, by recursion on the rest of the string: [p] is the character
    before the one treated. *)

Module EscaperModel.
Import Escaper.

Fixpoint escape_rest (p : ascii) (rest : list ascii) : list ascii :=
  match rest with
  | [] => []
  | c :: rest' => chunk p c ++ escape_rest c rest'
  end.

(** Reading escaped text back: a backslash yields the character after it
    (a backslash at the very end stands for itself). *)
Fixpoint unescape (s : list ascii) : list ascii :=
  match s with
  | [] => []
  | c :: s' =>
      if ceq c chr_backslash then
        match s' with
        | [] => [c]
        | d :: s'' => d :: unescape s''
        end
      else c :: unescape s'
  end.

(** [ok_after p s], for the text [s] that follows the character [p]: no
    special character comes directly after a backslash, and none of the
    five control characters occurs. *)
Fixpoint ok_after (p : ascii) (s : list ascii) : bool :=
  match s with
  | [] => true
  | c :: s' =>
      negb (ceq p chr_backslash && is_case c)
      && negb (is_case c && negb (is_quote_like c))
      && ok_after c s'
  end.

End EscaperModel.

(** ** Binding several arguments (mysql.hpp, lines 171-180)

    The variadic [_execute] binds its first argument at position [n] by
    overload resolution and recurses on the rest with [n+1].  An argument
    is an [int] or a [std::string].  The increment is a signed addition:
    past [INT_MAX] it is undefined.  [Stmt::execute] then hands the array
    to the native library; those two calls are not part of this model. *)

Module Binding.
Import Native Wrapper.

Inductive arg : Type :=
| Arg_int (x : Z)
| Arg_string (x : list ascii).

(** [bind_param(n, x)] as overload resolution picks it. *)
Definition bind_arg (this : Stmt) (n : Z) (a : arg) : option Stmt :=
  match a with
  | Arg_int x => bind_param_int this n x
  | Arg_string x => bind_param_string this n x
  end.

Fixpoint _execute (this : Stmt) (n : Z) (args : list arg) : option Stmt :=
  match args with
  | [] => Some this
  | x :: args' =>
      match bind_arg this n x with
      | Some this' =>
          if n + 1 <=? INT_MAX then _execute this' (n + 1) args' else None
      | None => None
      end
  end.

End Binding.

(** ** More concrete inputs *)

Module Samples.
Import Native Wrapper.

Definition local_args : connect_args :=
  {| host := Some (list_ascii_of_string "localhost");
     user := Some (list_ascii_of_string "app");
     password := None; db := Some (list_ascii_of_string "shop");
     port := 3306; unix_socket := None; client_flag := 0 |}.

(** A server on which statements succeed and queries have the result
    set 9. *)
Definition serving : Scenario.settings :=
  {| Scenario.connect_ok := true; Scenario.query_rc := 0;
     Scenario.prepare_rc := 0; Scenario.result_set := Some 9%nat |}.

(** A client whose liveness probe fails and whose other calls succeed. *)
Definition stale_client : library :=
  {| mysql_init := fun _ => Returns (Some 2%nat);
     mysql_real_connect := fun _ => Returns (Some 2%nat);
     mysql_error := fun _ => Returns [];
     mysql_close := fun _ => Returns tt;
     mysql_ping := fun _ => Returns 1;
     mysql_insert_id := fun _ => Returns 4294967295;
     mysql_affected_rows := fun _ => Returns 18446744073709551615;
     mysql_more_results := fun _ => Returns 0;
     mysql_next_result := fun _ => Returns (-1);
     mysql_use_result := fun _ => Returns None;
     mysql_real_query := fun _ => Returns 0;
     mysql_stmt_init := fun _ => Returns None;
     mysql_stmt_prepare := fun _ => Returns 1;
     mysql_stmt_param_count := fun _ => Returns 0;
     mysql_stmt_close := fun _ => Returns 0;
     mysql_num_fields := fun _ => Returns 0;
     mysql_free_result := fun _ => Returns tt;
     mysql_fetch_row := fun _ => Returns None;
     mysql_fetch_lengths := fun _ => Returns None |}.

(** Two owners of different handles, at addresses 0 and 1. *)
Definition other_Result : Result := {| res := Some 4%nat; num_fields := 5 |}.

Definition two_owning_Results : gmap nat Result :=
  <[0%nat := Scenario.owning_Result]> (<[1%nat := other_Result]> ∅).

Definition other_Stmt : Stmt :=
  {| stmt := Some 4%nat; count := 0; params := Some []; str_length := None |}.

Definition two_owning_Stmts : gmap nat Stmt :=
  <[0%nat := Scenario.owning_Stmt]> (<[1%nat := other_Stmt]> ∅).

(** A statement with three free slots. *)
Definition three_slots : Stmt :=
  {| stmt := Some 7%nat; count := 3;
     params := Some [zero_bind; zero_bind; zero_bind]; str_length := None |}.

End Samples.

(** * Properties *)

(** ** The escaper *)

Section EscaperFacts.
Import Escaper.

Implicit Types (val result out : list ascii) (c p : ascii) (i k : nat).

Lemma ceq_true c p : ceq c p = true <-> c = p.
Proof. apply Ascii.eqb_eq. Qed.

Lemma ceq_false c p : ceq c p = false <-> c <> p.
Proof. apply Ascii.eqb_neq. Qed.

Lemma at_lookup val i :
  at_ val (Z.of_nat i) =
  match val !! i with Some c => Returned c | None => Threw_out_of_range end.
Proof.
  unfold at_. rewrite Nat2Z.id.
  destruct (val !! i) as [c|] eqn:E.
  - apply lookup_lt_Some in E.
    replace (0 <=? Z.of_nat i) with true by (symmetry; apply Z.leb_le; lia).
    replace (Z.of_nat i <? Z.of_nat (length val)) with true
      by (symmetry; apply Z.ltb_lt; lia).
    reflexivity.
  - destruct ((0 <=? Z.of_nat i) && (Z.of_nat i <? Z.of_nat (length val)));
      reflexivity.
Qed.

Lemma at_SIZE_MAX val :
  Z.of_nat (length val) < size_t_modulus -> at_ val SIZE_MAX = Threw_out_of_range.
Proof.
  intros H. unfold at_, SIZE_MAX.
  replace (size_t_modulus - 1 <? Z.of_nat (length val)) with false
    by (symmetry; apply Z.ltb_ge; lia).
  rewrite andb_false_r. reflexivity.
Qed.

Lemma pev_first : to_size_t (Z.of_nat 0 - 1) = SIZE_MAX.
Proof. reflexivity. Qed.

Lemma pev_later i :
  Z.of_nat (S i) < size_t_modulus -> to_size_t (Z.of_nat (S i) - 1) = Z.of_nat i.
Proof.
  intros H. unfold to_size_t. rewrite Z.mod_small; lia.
Qed.

Lemma escape_body_first val c result :
  Z.of_nat (length val) < size_t_modulus ->
  val !! 0%nat = Some c ->
  escape_body val (Z.of_nat 0) result =
  if is_case c then Threw_out_of_range else Returned (result ++ [c]).
Proof.
  intros Hlen Hc. unfold escape_body. rewrite pev_first, at_lookup, Hc. simpl.
  destruct (is_case c); [|reflexivity].
  unfold lookback. rewrite at_SIZE_MAX by assumption. reflexivity.
Qed.

Lemma escape_body_later val i p c result :
  Z.of_nat (length val) < size_t_modulus ->
  val !! i = Some p -> val !! S i = Some c ->
  escape_body val (Z.of_nat (S i)) result = Returned (result ++ chunk p c).
Proof.
  intros Hlen Hp Hc. unfold escape_body.
  assert (Z.of_nat (S i) < size_t_modulus)
    by (apply lookup_lt_Some in Hc; lia).
  rewrite pev_later, at_lookup, Hc by assumption. simpl.
  unfold chunk. destruct (is_case c); [|reflexivity].
  unfold lookback. rewrite at_lookup, Hp.
  replace (0 <=? Z.of_nat i) with true by (symmetry; apply Z.leb_le; lia).
  simpl. destruct (negb (ceq p chr_backslash)); simpl.
  - rewrite <- app_assoc. reflexivity.
  - reflexivity.
Qed.

Lemma escape_body_outside val i result :
  val !! i = None -> escape_body val (Z.of_nat i) result = Threw_out_of_range.
Proof. intros H. unfold escape_body. rewrite at_lookup, H. reflexivity. Qed.

Lemma escape_loop_app val n m z result :
  escape_loop val (n + m) z result =
  (r <-! escape_loop val n z result; escape_loop val m (z + Z.of_nat n) r).
Proof.
  revert z result. induction n as [|n IH]; intros z result.
  - simpl. rewrite Z.add_0_r. reflexivity.
  - change (S n + m)%nat with (S (n + m)). cbn [escape_loop].
    destruct (escape_body val z result) as [r|]; [|reflexivity].
    cbn [exc_bind]. rewrite IH. replace (z + 1 + Z.of_nat n) with (z + Z.of_nat (S n)) by lia.
    reflexivity.
Qed.

Lemma escape_prefix_S val k :
  escape_prefix val (S k) =
  (r <-! escape_prefix val k; escape_body val (Z.of_nat k) r).
Proof.
  unfold escape_prefix. replace (S k) with (k + 1)%nat by lia.
  rewrite escape_loop_app. destruct (escape_loop val k 0 []) as [r|]; [|reflexivity].
  cbn [exc_bind escape_loop]. rewrite Z.add_0_l.
  destruct (escape_body val (Z.of_nat k) r); reflexivity.
Qed.

Lemma escape_string_prefix val k out :
  (k <= length val)%nat -> escape_string val = Returned out ->
  exists r, escape_prefix val k = Returned r /\ r `prefix_of` out.
Proof.
  intros Hk. unfold escape_string, escape_prefix.
  replace (length val) with (k + (length val - k))%nat by lia.
  rewrite escape_loop_app.
  destruct (escape_loop val k 0 []) as [r|]; [|discriminate].
  cbn [exc_bind]. intros H. exists r. split; [reflexivity|].
  clear Hk. revert H. generalize (0 + Z.of_nat k). generalize (length val - k)%nat.
  intros n. revert r. induction n as [|n IH]; intros r z H.
  - cbn in H. injection H as <-. reflexivity.
  - cbn [escape_loop] in H.
    destruct (escape_body val z r) as [r'|] eqn:E; [|discriminate].
    cbn [exc_bind] in H. apply IH in H.
    transitivity r'; [|exact H].
    unfold escape_body in E.
    destruct (at_ val z) as [c|]; [|discriminate]. cbn in E.
    destruct (is_case c).
    + unfold lookback in E.
      destruct (0 <=? to_size_t (z - 1)).
      * destruct (at_ val (to_size_t (z - 1))) as [q|]; [|discriminate].
        cbn in E. destruct (negb (ceq q chr_backslash)); cbn in E;
          injection E as <-.
        -- rewrite <- app_assoc. apply prefix_app_r. reflexivity.
        -- apply prefix_app_r. reflexivity.
      * cbn in E. injection E as <-.
        rewrite <- app_assoc. apply prefix_app_r. reflexivity.
    + injection E as <-. apply prefix_app_r. reflexivity.
Qed.


Lemma control_letter_case c l : control_letter c = Some l -> is_case c = true.
Proof.
  unfold control_letter, is_case.
  destruct (ceq c chr_nl), (ceq c chr_cr), (ceq c chr_tab), (ceq c chr_ff),
    (ceq c chr_vt); try discriminate; intros _;
    rewrite ?orb_true_r; reflexivity.
Qed.

Lemma control_letter_form c l :
  control_letter c = Some l -> escape_form c = [chr_backslash; l].
Proof.
  unfold control_letter, escape_form.
  destruct (ceq c chr_nl), (ceq c chr_cr), (ceq c chr_tab), (ceq c chr_ff),
    (ceq c chr_vt); intros H; try discriminate; injection H as <-; reflexivity.
Qed.

Lemma quote_like_case c : is_quote_like c = true -> is_case c = true.
Proof.
  unfold is_quote_like, is_case.
  destruct (ceq c chr_quote), (ceq c chr_dquote), (ceq c chr_backslash);
    try discriminate; intros _; rewrite ?orb_true_r; reflexivity.
Qed.

Lemma quote_like_form c : is_quote_like c = true -> escape_form c = [c].
Proof.
  unfold is_quote_like. intros H.
  apply orb_true_iff in H as [H|H]; [apply orb_true_iff in H as [H|H]|];
    apply ceq_true in H; subst c; reflexivity.
Qed.

Lemma not_case_not_backslash c : is_case c = false -> ceq c chr_backslash = false.
Proof.
  unfold is_case. destruct (ceq c chr_backslash); [|reflexivity].
  rewrite ?orb_true_r. simpl. discriminate.
Qed.

Lemma pending_app result s : pending (result ++ s) = fold_left scan s (pending result).
Proof. unfold pending. apply fold_left_app. Qed.

Lemma scan_escape_form c st :
  fold_left scan (escape_form c) st = negb st && ceq c chr_backslash.
Proof.
  unfold escape_form.
  destruct (ceq c chr_nl) eqn:E1; [apply ceq_true in E1; subst; destruct st; reflexivity|].
  destruct (ceq c chr_cr) eqn:E2; [apply ceq_true in E2; subst; destruct st; reflexivity|].
  destruct (ceq c chr_tab) eqn:E3; [apply ceq_true in E3; subst; destruct st; reflexivity|].
  destruct (ceq c chr_ff) eqn:E4; [apply ceq_true in E4; subst; destruct st; reflexivity|].
  destruct (ceq c chr_vt) eqn:E5; [apply ceq_true in E5; subst; destruct st; reflexivity|].
  destruct st; reflexivity.
Qed.

Lemma scan_chunk p c st :
  fold_left scan (chunk p c) st =
  if is_case c then
    (if ceq p chr_backslash then negb st else st) && ceq c chr_backslash
  else false.
Proof.
  unfold chunk. destruct (is_case c) eqn:Ec.
  - rewrite fold_left_app, scan_escape_form.
    destruct (ceq p chr_backslash); simpl; [reflexivity|].
    destruct st; reflexivity.
  - cbn [fold_left]. unfold scan.
    rewrite (not_case_not_backslash _ Ec). destruct st; reflexivity.
Qed.

(** An open backslash at the end of a text is its last character. *)
Lemma pending_last s : pending s = true -> last s = Some chr_backslash.
Proof.
  induction s as [|c s IH] using rev_ind; [discriminate|].
  rewrite pending_app, last_snoc. simpl. unfold scan.
  destruct (pending s); [discriminate|].
  intros H. apply ceq_true in H. congruence.
Qed.

(** The invariant of the loop: how the escape state of the output follows
    the escape state of the input read so far. *)
Lemma escape_prefix_pending val k r :
  Z.of_nat (length val) < size_t_modulus ->
  escape_prefix val k = Returned r ->
  pending r =
  match last (take k val) with
  | Some p => ceq p chr_backslash && negb (pending (take k val))
  | None => false
  end.
Proof.
  intros Hlen. revert r. induction k as [|k IH]; intros r H.
  - cbn in H. injection H as <-. rewrite take_0. reflexivity.
  - rewrite escape_prefix_S in H.
    destruct (escape_prefix val k) as [r0|] eqn:E0; [|discriminate].
    cbn [exc_bind] in H. specialize (IH r0 eq_refl).
    destruct (val !! k) as [c|] eqn:Ec;
      [|rewrite escape_body_outside in H by assumption; discriminate].
    rewrite (take_S_r _ _ _ Ec), last_snoc, pending_app. simpl.
    destruct k as [|j].
    + rewrite (escape_body_first _ _ _ Hlen Ec) in H.
      destruct (is_case c) eqn:Ecase; [discriminate|].
      injection H as <-. rewrite pending_app. cbn in E0. injection E0 as <-.
      rewrite take_0. simpl. rewrite (not_case_not_backslash _ Ecase). reflexivity.
    + destruct (val !! j) as [p|] eqn:Ep.
      2:{ apply lookup_lt_Some in Ec. apply lookup_ge_None in Ep. lia. }
      rewrite (escape_body_later _ _ _ _ _ Hlen Ep Ec) in H.
      injection H as <-. rewrite pending_app, scan_chunk, IH.
      rewrite (take_S_r _ _ _ Ep), last_snoc.
      rewrite <- (take_S_r _ _ _ Ep).
      destruct (is_case c) eqn:Ecase.
      * unfold scan.
        destruct (ceq p chr_backslash) eqn:Eb; simpl.
        -- destruct (pending (take (S j) val)), (ceq c chr_backslash); reflexivity.
        -- destruct (pending (take (S j) val)) eqn:Eq.
           ++ apply pending_last in Eq.
              rewrite (take_S_r _ _ _ Ep), last_snoc in Eq.
              injection Eq as ->. discriminate.
           ++ destruct (ceq c chr_backslash); reflexivity.
      * rewrite (not_case_not_backslash _ Ecase). reflexivity.
Qed.


(** Apart from a leading special character the loop runs to its end. *)
Lemma escape_string_returns val :
  Z.of_nat (length val) < size_t_modulus ->
  (forall c, val !! 0%nat = Some c -> is_case c = false) ->
  exists out, escape_string val = Returned out.
Proof.
  intros Hlen Hhead.
  assert (forall k, (k <= length val)%nat ->
                    exists r, escape_prefix val k = Returned r) as Hk.
  { induction k as [|k IH]; intros Hle.
    - exists []. reflexivity.
    - destruct IH as [r Hr]; [lia|].
      rewrite escape_prefix_S, Hr. cbn [exc_bind].
      destruct (lookup_lt_is_Some_2 val k) as [c Hc]; [lia|].
      destruct k as [|j].
      + rewrite (escape_body_first _ _ _ Hlen Hc), (Hhead _ Hc). eauto.
      + destruct (lookup_lt_is_Some_2 val j) as [p Hp]; [lia|].
        rewrite (escape_body_later _ _ _ _ _ Hlen Hp Hc). eauto. }
  apply (Hk (length val)). lia.
Qed.

Example escape_string_empty : escape_string [] = Returned [].
Proof. reflexivity. Qed.

Example escape_string_OBrien :
  escape_string (list_ascii_of_string "O'Brien") =
  Returned (list_ascii_of_string "O\'Brien").
Proof. reflexivity. Qed.

(** The whole run on the three bytes a, newline, b: five characters. *)
Example escape_string_newline_run :
  escape_string ["a"%char; chr_nl; "b"%char] =
  Returned ["a"%char; chr_backslash; chr_backslash; "n"%char; "b"%char].
Proof. reflexivity. Qed.

(** A quote that the input had already escaped loses its escape: the
    backslash before it is doubled and the quote is copied as it is. *)
Example escape_string_escaped_quote_run :
  escape_string ["a"%char; chr_backslash; chr_quote] =
  Returned ["a"%char; chr_backslash; chr_backslash; chr_quote].
Proof. reflexivity. Qed.

(** C1 (code defect).  The claim: every newline, carriage return, tab,
    form feed or vertical tab of the input is rendered as exactly two
    characters, a backslash and the letter n, r, t, f or v.  The code: at
    an index after the first whose predecessor is not a backslash, the
    iteration appends three characters, two backslashes and the letter
    (line 23 adds a backslash, lines 27-31 add the two-character form). *)
Theorem escape_string_control_char_three_chars val i p c l :
  Z.of_nat (length val) < size_t_modulus ->
  val !! i = Some p -> val !! S i = Some c ->
  p <> chr_backslash ->
  control_letter c = Some l ->
  escape_prefix val (S (S i)) =
  (r <-! escape_prefix val (S i);
   Returned (r ++ [chr_backslash; chr_backslash; l])).
Proof.
  intros Hlen Hp Hc Hne Hl. rewrite escape_prefix_S.
  destruct (escape_prefix val (S i)) as [r|]; [|reflexivity].
  cbn [exc_bind]. rewrite (escape_body_later _ _ _ _ _ Hlen Hp Hc).
  unfold chunk. rewrite (control_letter_case _ _ Hl), (control_letter_form _ _ Hl).
  apply ceq_false in Hne. rewrite Hne. reflexivity.
Qed.

Lemma escape_string_control_char_three_chars_witness :
  escape_prefix ["a"%char; chr_nl; "b"%char] 2 =
  (r <-! escape_prefix ["a"%char; chr_nl; "b"%char] 1;
   Returned (r ++ [chr_backslash; chr_backslash; "n"%char])).
Proof.
  apply (escape_string_control_char_three_chars
           ["a"%char; chr_nl; "b"%char] 0 "a"%char chr_nl "n"%char).
  - reflexivity.
  - reflexivity.
  - reflexivity.
  - discriminate.
  - reflexivity.
Defined.

(** C2 (code defect).  The claim: [escape_string] returns for every input,
    also when the first character is one to be escaped.  The code: for
    such an input the first iteration computes [pev = 0 - 1], which is
    [SIZE_MAX] in [size_t]; the guard [pev >= 0] holds, [val.at(pev)]
    throws [std::out_of_range], and nothing is returned. *)
Theorem escape_string_throws_on_leading_special c rest :
  Z.of_nat (length (c :: rest)) < size_t_modulus ->
  is_case c = true ->
  escape_string (c :: rest) = Threw_out_of_range.
Proof.
  intros Hlen Hc. unfold escape_string. cbn [length escape_loop].
  change 0 with (Z.of_nat 0).
  rewrite (escape_body_first (c :: rest) c [] Hlen eq_refl), Hc. reflexivity.
Qed.

Lemma escape_string_throws_on_leading_special_witness :
  escape_string (chr_quote :: list_ascii_of_string "abc") = Threw_out_of_range.
Proof.
  apply (escape_string_throws_on_leading_special chr_quote
           (list_ascii_of_string "abc")).
  - reflexivity.
  - reflexivity.
Defined.

(** A character that does not follow a backslash is not escaped in the
    text it stands in. *)
Lemma unescaped_when_not_after_backslash val i c :
  val !! i = Some c ->
  (forall j, i = S j -> val !! j <> Some chr_backslash) ->
  escaped_at val i = false.
Proof.
  intros Hc Hprev. unfold escaped_at.
  destruct (pending (take i val)) eqn:E; [|reflexivity].
  apply pending_last in E. destruct i as [|j]; [rewrite take_0 in E; discriminate|].
  destruct (lookup_lt_is_Some_2 val j) as [p Hp];
    [apply lookup_lt_Some in Hc; lia|].
  rewrite (take_S_r _ _ _ Hp), last_snoc in E. injection E as ->.
  exfalso. exact (Hprev j eq_refl Hp).
Qed.

(** C3.  For every input on which [escape_string] returns:
    (1) a single quote, double quote or backslash of the input that is not
    escaped there (the text before it does not end in an open backslash)
    ends the output of its iteration, and that occurrence is escaped in
    the final output;
    (2) when the character before a special character is a backslash, the
    iteration appends the form of the character alone, with no backslash
    added in front of it. *)
Theorem escape_string_escapes_what_needed val out i c :
  Z.of_nat (length val) < size_t_modulus ->
  escape_string val = Returned out ->
  val !! i = Some c ->
  (is_quote_like c = true -> escaped_at val i = false ->
   exists r, escape_prefix val (S i) = Returned r /\ r `prefix_of` out /\
             last r = Some c /\ escaped_at out (pred (length r)) = true)
  /\
  (is_case c = true ->
   (exists j, i = S j /\ val !! j = Some chr_backslash) ->
   exists r0, escape_prefix val i = Returned r0 /\
              escape_prefix val (S i) = Returned (r0 ++ escape_form c)).
Proof.
  intros Hlen Hout Hc.
  pose proof (lookup_lt_Some _ _ _ Hc) as Hi.
  destruct (escape_string_prefix val i out) as (r0 & Hr0 & _); [lia|exact Hout|].
  destruct (escape_string_prefix val (S i) out) as (r & Hr & Hpre); [lia|exact Hout|].
  pose proof Hr as Hstep. rewrite escape_prefix_S, Hr0 in Hstep.
  cbn [exc_bind] in Hstep.
  split.
  - intros Hq Hin. exists r. split; [exact Hr|]. split; [exact Hpre|].
    pose proof (escape_prefix_pending val i r0 Hlen Hr0) as Hinv.
    unfold escaped_at in Hin. rewrite Hin in Hinv.
    destruct i as [|j].
    + rewrite (escape_body_first _ _ _ Hlen Hc) in Hstep.
      rewrite (quote_like_case _ Hq) in Hstep. discriminate.
    + destruct (lookup_lt_is_Some_2 val j) as [p Hp]; [lia|].
      rewrite (escape_body_later _ _ _ _ _ Hlen Hp Hc) in Hstep.
      injection Hstep as <-.
      rewrite (take_S_r _ _ _ Hp), last_snoc in Hinv.
      unfold chunk in *.
      rewrite (quote_like_case _ Hq), (quote_like_form _ Hq) in *.
      destruct Hpre as [rest Hrest]. unfold escaped_at.
      destruct (ceq p chr_backslash); simpl in *.
      * split; [apply last_snoc|].
        rewrite length_app. simpl. rewrite Nat.add_1_r. simpl.
        rewrite Hrest, <- app_assoc, take_app_length. exact Hinv.
      * replace (r0 ++ [chr_backslash; c]) with ((r0 ++ [chr_backslash]) ++ [c])
          in * by (rewrite <- app_assoc; reflexivity).
        split; [apply last_snoc|].
        rewrite length_app. simpl. rewrite Nat.add_1_r. simpl.
        rewrite Hrest, <- app_assoc, take_app_length, pending_app, Hinv.
        reflexivity.
  - intros Hcase (j & -> & Hp). exists r0. split; [exact Hr0|].
    rewrite (escape_body_later _ _ _ _ _ Hlen Hp Hc) in Hstep.
    rewrite Hr, <- Hstep. unfold chunk. rewrite Hcase. reflexivity.
Qed.

Lemma escape_string_escapes_what_needed_witness :
  (exists r,
     escape_prefix ["a"%char; chr_backslash; chr_backslash; chr_quote] 4
       = Returned r /\
     r `prefix_of`
       ["a"%char; chr_backslash; chr_backslash; chr_backslash; chr_quote] /\
     last r = Some chr_quote /\
     escaped_at
       ["a"%char; chr_backslash; chr_backslash; chr_backslash; chr_quote]
       (pred (length r)) = true)
  /\
  (exists r0,
     escape_prefix ["a"%char; chr_backslash; chr_backslash; chr_quote] 3
       = Returned r0 /\
     escape_prefix ["a"%char; chr_backslash; chr_backslash; chr_quote] 4
       = Returned (r0 ++ escape_form chr_quote)).
Proof.
  destruct (escape_string_escapes_what_needed
              ["a"%char; chr_backslash; chr_backslash; chr_quote]
              ["a"%char; chr_backslash; chr_backslash; chr_backslash; chr_quote]
              3 chr_quote) as [H1 H2].
  - reflexivity.
  - reflexivity.
  - reflexivity.
  - split.
    + apply H1; reflexivity.
    + apply H2; [reflexivity|]. exists 2%nat. split; reflexivity.
Defined.

End EscaperFacts.

(** ** The connection *)

Section ConnectionFacts.
Import Native Wrapper.

Variable lib : library.

Implicit Types (this : mysql) (w : world) (s : list ascii).

Ltac run_call H :=
  unfold bind at 1, call at 1; cbn [trace cerr]; rewrite H;
  cbv beta iota; cbn [trace cerr].

(** A failed query prints the native error text and returns the empty
    [Result]. *)
Lemma query_failure_prints_error this s w x msg :
  let q := Call_mysql_real_query (handle this) s (Z.of_nat (length s)) in
  let e := Call_mysql_error (handle this) in
  mysql_real_query lib (trace w ++ [q]) = Returns x ->
  x <> 0 ->
  mysql_error lib ((trace w ++ [q]) ++ [e]) = Returns msg ->
  query lib this s w =
  Done Result_default
       {| trace := (trace w ++ [q]) ++ [e];
          cerr := cerr w ++ query_failed ++ msg ++ endl |}.
Proof.
  cbv zeta. intros Hq Hx He. unfold query.
  run_call Hq. apply Z.eqb_neq in Hx. rewrite Hx. cbn [negb].
  run_call He. reflexivity.
Qed.

(** A failed connection attempt on a closed object prints the native error
    text, releases the handle and leaves the object closed. *)
Lemma connect_failure_prints_error a w h0 msg :
  let c := Call_mysql_real_connect (Some h0) a in
  let e := Call_mysql_error (Some h0) in
  let tr := ((trace w ++ [Call_mysql_init]) ++ [c]) ++ [e] in
  mysql_init lib (trace w ++ [Call_mysql_init]) = Returns (Some h0) ->
  mysql_real_connect lib ((trace w ++ [Call_mysql_init]) ++ [c]) = Returns None ->
  mysql_error lib tr = Returns msg ->
  mysql_close lib (tr ++ [Call_mysql_close (Some h0)]) = Returns tt ->
  connect lib {| handle := None |} a w =
  Done (false, {| handle := None |})
       {| trace := tr ++ [Call_mysql_close (Some h0)];
          cerr := cerr w ++ connect_failed ++ msg ++ endl |}.
Proof.
  cbv zeta. intros Hi Hc He Hcl. unfold connect, is_open.
  cbn [handle is_null]. unfold bind at 1, ret at 1. unfold bind at 1, ret at 1.
  run_call Hi. cbn [is_null]. run_call Hc. cbn [is_null negb].
  run_call He. unfold bind at 1, print at 1. cbn [trace cerr].
  run_call Hcl. reflexivity.
Qed.

(** With no result set, [query] ends in the constructor of line 217 run
    on the null pointer. *)
Lemma query_without_result_set_run this s w :
  let q := Call_mysql_real_query (handle this) s (Z.of_nat (length s)) in
  let u := Call_mysql_use_result (handle this) in
  mysql_real_query lib (trace w ++ [q]) = Returns 0 ->
  mysql_use_result lib ((trace w ++ [q]) ++ [u]) = Returns None ->
  query lib this s w =
  Result_from lib None {| trace := (trace w ++ [q]) ++ [u]; cerr := cerr w |}.
Proof.
  cbv zeta. intros Hq Hu. unfold query.
  run_call Hq. cbn [Z.eqb negb]. unfold use_result.
  run_call Hu. reflexivity.
Qed.

(** C4 (code defect).  The claim: when the query succeeds and the native
    library yields no result set, the returned [Result] holds no handle,
    evaluates false, and no native result-set operation is invoked on the
    absent handle while it is built.  The code: line 278 builds and drops
    a temporary instead of returning it, so line 280 runs the constructor
    of line 217 on the null pointer, which calls [mysql_num_fields] on
    it.  Whenever that call comes back, the [Result] is indeed empty. *)
Theorem query_without_result_set_calls_num_fields_on_null this s w :
  let q := Call_mysql_real_query (handle this) s (Z.of_nat (length s)) in
  let u := Call_mysql_use_result (handle this) in
  mysql_real_query lib (trace w ++ [q]) = Returns 0 ->
  mysql_use_result lib ((trace w ++ [q]) ++ [u]) = Returns None ->
  trace (final_world (query lib this s w)) =
    ((trace w ++ [q]) ++ [u]) ++ [Call_mysql_num_fields None]
  /\ (forall r w', query lib this s w = Done r w' ->
                   res r = None /\ Result_bool r = false).
Proof.
  cbv zeta. intros Hq Hu.
  rewrite (query_without_result_set_run this s w Hq Hu).
  unfold Result_from, bind, call, ret. cbn [trace cerr].
  destruct (mysql_num_fields lib _) as [n|]; cbn [final_world trace].
  - split; [reflexivity|]. intros r w' H. injection H as <- <-.
    split; reflexivity.
  - split; [reflexivity|]. intros r w' H. discriminate.
Qed.

(** C5 (code defect).  The claim: a statement-preparation failure, like a
    connection or query failure, prints the native error text and returns
    an empty value.  The code: [prepare] returns the empty [Stmt] and
    nothing else; the error stream is left as it was and the native error
    text is never asked for, unlike in [query] and [connect]. *)
Theorem prepare_failure_prints_nothing this s w p x :
  let i := Call_mysql_stmt_init (handle this) in
  let e := Call_mysql_stmt_prepare p s (Z.of_nat (length s)) in
  mysql_stmt_init lib (trace w ++ [i]) = Returns p ->
  mysql_stmt_prepare lib ((trace w ++ [i]) ++ [e]) = Returns x ->
  x <> 0 ->
  prepare lib this s w =
    Done Stmt_default {| trace := (trace w ++ [i]) ++ [e]; cerr := cerr w |}
  /\ Stmt_bool Stmt_default = false
  /\ stmt Stmt_default = None.
Proof.
  cbv zeta. intros Hi He Hx. unfold prepare.
  run_call Hi. run_call He. apply Z.eqb_neq in Hx. rewrite Hx. cbn [negb].
  repeat split.
Qed.

End ConnectionFacts.

Section ConnectionRuns.
Import Native Wrapper Scenario.

Lemma query_without_result_set_calls_num_fields_on_null_witness :
  trace (final_world (query (client no_result_set) open_connection sql_do start)) =
    [Call_mysql_real_query (Some 1%nat) sql_do 4;
     Call_mysql_use_result (Some 1%nat);
     Call_mysql_num_fields None]
  /\ (forall r w',
        query (client no_result_set) open_connection sql_do start = Done r w' ->
        res r = None /\ Result_bool r = false).
Proof.
  exact (query_without_result_set_calls_num_fields_on_null
           (client no_result_set) open_connection sql_do start
           eq_refl eq_refl).
Defined.

(** On that run the process does not survive the call. *)
Example query_without_result_set_crashes :
  query (client no_result_set) open_connection sql_do start =
  Crashed {| trace := [Call_mysql_real_query (Some 1%nat) sql_do 4;
                       Call_mysql_use_result (Some 1%nat);
                       Call_mysql_num_fields None];
             cerr := [] |}.
Proof. reflexivity. Qed.

Lemma prepare_failure_prints_nothing_witness :
  prepare (client failing) open_connection sql_do start =
    Done Stmt_default
         {| trace := [Call_mysql_stmt_init (Some 1%nat);
                      Call_mysql_stmt_prepare (Some 7%nat) sql_do 4];
            cerr := [] |}
  /\ Stmt_bool Stmt_default = false
  /\ stmt Stmt_default = None.
Proof.
  apply (prepare_failure_prints_nothing
           (client failing) open_connection sql_do start (Some 7%nat) 1).
  - reflexivity.
  - reflexivity.
  - discriminate.
Defined.

(** The sibling failure path on the same server writes to the stream. *)
Example query_failure_run :
  query (client failing) open_connection sql_do start =
  Done Result_default
       {| trace := [Call_mysql_real_query (Some 1%nat) sql_do 4;
                    Call_mysql_error (Some 1%nat)];
          cerr := query_failed ++ gone_away ++ endl |}.
Proof. reflexivity. Qed.

End ConnectionRuns.

(** ** Result and Row *)

Section ResultFacts.
Import Native Wrapper.

Variable lib : library.

(** What [fetch_row] does on any [Result]: two native calls on its handle,
    whatever the handle is. *)
Lemma fetch_row_run (this : Result) (w : world) :
  let f := Call_mysql_fetch_row (res this) in
  let l := Call_mysql_fetch_lengths (res this) in
  fetch_row lib this w =
  match mysql_fetch_row lib (trace w ++ [f]) with
  | Crashes => Crashed {| trace := trace w ++ [f]; cerr := cerr w |}
  | Returns r =>
      match mysql_fetch_lengths lib ((trace w ++ [f]) ++ [l]) with
      | Crashes => Crashed {| trace := (trace w ++ [f]) ++ [l]; cerr := cerr w |}
      | Returns n =>
          Done {| row := r; lengths := n |}
               {| trace := (trace w ++ [f]) ++ [l]; cerr := cerr w |}
      end
  end.
Proof.
  cbv zeta. unfold fetch_row, bind, call, ret. cbn [trace cerr].
  destruct (mysql_fetch_row lib _); [|reflexivity].
  cbn [trace cerr]. destruct (mysql_fetch_lengths lib _); reflexivity.
Qed.

(** C6 (as amended).  A [Result] that is default-constructed or produced
    from a failed query holds no handle and evaluates false.  [fetch_row]
    on it has no guard: it hands the absent handle to the native
    [mysql_fetch_row], and it yields a [Row] only if the native library
    answers that call and [mysql_fetch_lengths] on the absent handle; the
    [Row] is then the pair of the two answers. *)
Theorem empty_Result_is_falsy_and_fetch_row_unguarded
    (this : mysql) (s : list ascii) (w : world) (x : Z) (msg : list ascii) :
  let q := Call_mysql_real_query (handle this) s (Z.of_nat (length s)) in
  let e := Call_mysql_error (handle this) in
  mysql_real_query lib (trace w ++ [q]) = Returns x ->
  x <> 0 ->
  mysql_error lib ((trace w ++ [q]) ++ [e]) = Returns msg ->
  (Result_bool Result_default = false /\ res Result_default = None)
  /\ (exists w', query lib this s w = Done Result_default w')
  /\ (forall w1,
        let f := Call_mysql_fetch_row None in
        let l := Call_mysql_fetch_lengths None in
        (trace w1 ++ [f]) `prefix_of`
          trace (final_world (fetch_row lib Result_default w1))
        /\ (forall r w2,
              fetch_row lib Result_default w1 = Done r w2 ->
              mysql_fetch_row lib (trace w1 ++ [f]) = Returns (row r) /\
              mysql_fetch_lengths lib ((trace w1 ++ [f]) ++ [l])
                = Returns (lengths r) /\
              trace w2 = (trace w1 ++ [f]) ++ [l])).
Proof.
  cbv zeta. intros Hq Hx He. split; [split; reflexivity|]. split.
  - eexists. apply (query_failure_prints_error lib this s w x msg Hq Hx He).
  - intros w1. rewrite (fetch_row_run Result_default w1). cbn [res Result_default].
    destruct (mysql_fetch_row lib _) as [r0|]; cbn [final_world trace].
    + destruct (mysql_fetch_lengths lib _) as [n|]; cbn [final_world trace].
      * split; [apply prefix_app_r; reflexivity|].
        intros r w2 H. injection H as <- <-. repeat split.
      * split; [apply prefix_app_r; reflexivity|]. intros r w2 H. discriminate.
    + split; [reflexivity|]. intros r w2 H. discriminate.
Qed.

End ResultFacts.

Section ResultRuns.
Import Native Wrapper Scenario.

(** C6 as stated fails: with a client library that reads through the
    handle, [fetch_row] on the default-constructed [Result] does not yield
    a falsy [Row]; the run ends inside [mysql_fetch_row]. *)
Lemma fetch_row_on_empty_Result_yields_no_Row :
  fetch_row (client failing) Result_default start =
    Crashed {| trace := [Call_mysql_fetch_row None]; cerr := [] |}
  /\ ~ (exists r w', fetch_row (client failing) Result_default start = Done r w'
                     /\ Row_bool r = false).
Proof.
  split; [reflexivity|]. intros (r & w' & H & _). discriminate H.
Qed.

Lemma empty_Result_is_falsy_and_fetch_row_unguarded_witness :
  (Result_bool Result_default = false /\ res Result_default = None)
  /\ (exists w', query (client failing) open_connection sql_do start
                 = Done Result_default w')
  /\ (forall w1,
        (trace w1 ++ [Call_mysql_fetch_row None]) `prefix_of`
          trace (final_world (fetch_row (client failing) Result_default w1))
        /\ (forall r w2,
              fetch_row (client failing) Result_default w1 = Done r w2 ->
              mysql_fetch_row (client failing)
                (trace w1 ++ [Call_mysql_fetch_row None]) = Returns (row r) /\
              mysql_fetch_lengths (client failing)
                ((trace w1 ++ [Call_mysql_fetch_row None])
                   ++ [Call_mysql_fetch_lengths None])
                = Returns (lengths r) /\
              trace w2 = (trace w1 ++ [Call_mysql_fetch_row None])
                           ++ [Call_mysql_fetch_lengths None])).
Proof.
  apply (empty_Result_is_falsy_and_fetch_row_unguarded
           (client failing) open_connection sql_do start 1 gone_away).
  - reflexivity.
  - discriminate.
  - reflexivity.
Defined.

End ResultRuns.

(** ** Guards on the connection handle *)

Section GuardFacts.
Import Native Wrapper.

(** C10.  On a closed connection [insert_id] and [affected_rows] return
    -1 without any native call.  [more_results] and [next_result] hand the
    handle they hold, null or not, to the native library: the call is
    always made, and a value they return is the one the native library
    returned for it. *)
Theorem more_results_next_result_unguarded
    (lib : library) (this : mysql) (w : world) :
  (insert_id lib {| handle := None |} w = Done (-1) w /\
   affected_rows lib {| handle := None |} w = Done (-1) w)
  /\
  (trace (final_world (more_results lib this w)) =
     trace w ++ [Call_mysql_more_results (handle this)] /\
   forall v w', more_results lib this w = Done v w' ->
     mysql_more_results lib (trace w ++ [Call_mysql_more_results (handle this)])
       = Returns v)
  /\
  (trace (final_world (next_result lib this w)) =
     trace w ++ [Call_mysql_next_result (handle this)] /\
   forall v w', next_result lib this w = Done v w' ->
     mysql_next_result lib (trace w ++ [Call_mysql_next_result (handle this)])
       = Returns v).
Proof.
  split; [split; reflexivity|].
  unfold more_results, next_result, bind, call, ret. cbn [trace cerr].
  split.
  - destruct (mysql_more_results lib _) as [v0|]; cbn [final_world trace];
      (split; [reflexivity|]); intros v w' H; [|discriminate].
    injection H as <- <-. reflexivity.
  - destruct (mysql_next_result lib _) as [v0|]; cbn [final_world trace];
      (split; [reflexivity|]); intros v w' H; [|discriminate].
    injection H as <- <-. reflexivity.
Qed.

(** On a closed connection the two unguarded members call the native
    library with the null handle. *)
Example more_results_on_closed_connection :
  more_results (Scenario.client Scenario.failing) Scenario.closed_connection
    Scenario.start =
  Crashed {| trace := [Call_mysql_more_results None]; cerr := [] |}.
Proof. reflexivity. Qed.

End GuardFacts.

(** ** Row assignment *)

Section RowFacts.
Import Native Wrapper.

(** C9 (code defect).  The claim: the move assignment of [Row] terminates
    and leaves the target with the source's members.  The code: the
    operator calls [std::swap], whose second statement is a move
    assignment of [Row], that is, the operator itself; the nesting never
    ends.  No amount of fuel lets the run finish. *)
Theorem Row_move_assign_never_returns
    (fuel : nat) (this x : nat) (st : gmap nat Row) :
  is_Some (st !! this) ->
  Row_move_assign fuel this x st = Out_of_fuel.
Proof.
  revert this x st. induction fuel as [|fuel IH]; intros this x st Hthis.
  - reflexivity.
  - cbn [Row_move_assign]. unfold std_swap.
    destruct Hthis as [ra Hra]. rewrite Hra. cbn [Row_move_ctor].
    rewrite IH; [reflexivity|].
    apply lookup_insert_is_Some'. right.
    rewrite lookup_insert_eq. eauto.
Qed.

Lemma Row_move_assign_never_returns_witness :
  Row_move_assign 1000 0 1
    (<[0%nat := Row_default]>
       (<[1%nat := {| row := Some 5%nat; lengths := Some 6%nat |}]> ∅))
  = Out_of_fuel.
Proof.
  apply (Row_move_assign_never_returns 1000 0 1).
  rewrite lookup_insert_eq. eauto.
Defined.

End RowFacts.

(** ** Parameter binding *)

Section StmtFacts.
Import Native Wrapper.

Lemma to_int_small z : INT_MIN <= z <= INT_MAX -> to_int z = z.
Proof.
  unfold to_int, INT_MIN, INT_MAX. intros H.
  rewrite Z.mod_small; lia.
Qed.

Lemma to_ulong_small z : 0 <= z < size_t_modulus -> to_ulong z = z.
Proof. unfold to_ulong. intros H. apply Z.mod_small. exact H. Qed.

(** The slot written by [bind_param] reads back as written. *)
Lemma bind_param_slot this i bt buf n nul len b :
  slot this i = Some b ->
  exists this',
    bind_param this i bt buf n nul len = Some this' /\
    slot this' i =
      Some {| buffer_type := bt; buffer := buf; buffer_length := to_ulong n;
              is_null_p := nul; length_ptr := len |}.
Proof.
  unfold bind_param. intros Hslot. rewrite Hslot.
  unfold slot in *. destruct (params this) as [arr|]; [|discriminate].
  destruct (0 <=? i) eqn:Hi; [|discriminate].
  eexists. split; [reflexivity|]. cbn [params].
  apply list_lookup_insert_eq. eapply lookup_lt_Some. exact Hslot.
Qed.

(** C7 (as amended).  For every [std::string] of at most [INT_MAX] bytes,
    whatever bytes it holds, and every slot of the array, [bind_param]
    records the exact byte size as the buffer length of the slot and as
    the value the slot's length pointer designates; the buffer is the
    string's bytes and the type is [MYSQL_TYPE_STRING]. *)
Theorem bind_param_string_records_size
    (this : Stmt) (i : Z) (x : list ascii) (b : MYSQL_BIND) :
  slot this i = Some b ->
  Z.of_nat (length x) <= INT_MAX ->
  exists this' b',
    bind_param_string this i x = Some this' /\
    slot this' i = Some b' /\
    buffer_type b' = MYSQL_TYPE_STRING /\
    buffer b' = Buffer_chars x /\
    buffer_length b' = Z.of_nat (length x) /\
    deref_length this' (length_ptr b') = Some (Z.of_nat (length x)).
Proof.
  intros Hslot Hsize. unfold bind_param_string.
  destruct (bind_param_slot this i MYSQL_TYPE_STRING (Buffer_chars x)
              (to_int (Z.of_nat (length x))) None (Length_of_slot i) b Hslot)
    as (this' & Hbind & Hread).
  assert (to_ulong (to_int (Z.of_nat (length x))) = Z.of_nat (length x)) as Hn.
  { rewrite to_int_small by (unfold INT_MIN, INT_MAX in *; lia).
    apply to_ulong_small. unfold INT_MAX, size_t_modulus in *. lia. }
  rewrite Hn in Hread.
  eexists this', _. split; [exact Hbind|]. split; [exact Hread|].
  cbn [buffer_type buffer buffer_length length_ptr deref_length].
  rewrite Hread. repeat split.
Qed.

Lemma bind_param_string_records_size_witness :
  exists this' b',
    bind_param_string
      {| stmt := Some 7%nat; count := 1; params := Some [zero_bind];
         str_length := None |}
      0 ["a"%char; "000"%char; "b"%char] = Some this' /\
    slot this' 0 = Some b' /\
    buffer_type b' = MYSQL_TYPE_STRING /\
    buffer b' = Buffer_chars ["a"%char; "000"%char; "b"%char] /\
    buffer_length b' = 3 /\
    deref_length this' (length_ptr b') = Some 3.
Proof.
  apply (bind_param_string_records_size
           {| stmt := Some 7%nat; count := 1; params := Some [zero_bind];
              str_length := None |}
           0 ["a"%char; "000"%char; "b"%char] zero_bind).
  - reflexivity.
  - discriminate.
Defined.

(** C7 as stated fails for a string of 2^31 bytes: its size does not fit
    the [int] parameter of line 144, and the slot records
    2^64 - 2^31 instead of 2^31. *)
Lemma bind_param_string_truncates_large_size :
  let x := replicate (Z.to_nat 2147483648) "a"%char in
  let this := {| stmt := Some 7%nat; count := 1; params := Some [zero_bind];
                 str_length := None |} in
  exists this' b',
    bind_param_string this 0 x = Some this' /\
    slot this' 0 = Some b' /\
    Z.of_nat (length x) = 2147483648 /\
    buffer_length b' = 18446744071562067968 /\
    buffer_length b' <> Z.of_nat (length x).
Proof.
  intros x this.
  assert (Z.of_nat (length x) = 2147483648) as Hlen.
  { unfold x. rewrite length_replicate. apply Z2Nat.id. discriminate. }
  destruct (bind_param_slot this 0 MYSQL_TYPE_STRING (Buffer_chars x)
              (to_int (Z.of_nat (length x))) None (Length_of_slot 0)
              zero_bind eq_refl) as (this' & Hbind & Hread).
  rewrite Hlen in Hread.
  exists this', {| buffer_type := MYSQL_TYPE_STRING; buffer := Buffer_chars x;
                   buffer_length := to_ulong (to_int 2147483648);
                   is_null_p := None; length_ptr := Length_of_slot 0 |}.
  split; [exact Hbind|]. split; [exact Hread|]. split; [exact Hlen|].
  cbn [buffer_length]. rewrite Hlen. split; [reflexivity|discriminate].
Qed.

End StmtFacts.

(** ** Moving the owners of native handles *)

Section MoveFacts.
Import Native Wrapper.

Variable lib : library.

Lemma count_calls_snoc f (tr : history) ev :
  count_calls f (tr ++ [ev]) =
  (count_calls f tr + (if f ev then 1 else 0))%nat.
Proof.
  unfold count_calls. rewrite List.filter_app, length_app. simpl.
  destruct (f ev); reflexivity.
Qed.

Lemma frees_result_same h : frees_result h (Call_mysql_free_result (Some h)) = true.
Proof. apply Nat.eqb_refl. Qed.

Lemma closes_stmt_same h : closes_stmt h (Call_mysql_stmt_close (Some h)) = true.
Proof. apply Nat.eqb_refl. Qed.

Lemma frees_result_other h p :
  p <> Some h -> frees_result h (Call_mysql_free_result p) = false.
Proof.
  intros Hp. destruct p as [h'|]; [|reflexivity]. simpl.
  apply Nat.eqb_neq. congruence.
Qed.

(** The destructor of an empty object makes no call; that of an owner
    makes exactly the releasing call. *)
Lemma Result_dtor_empty (r : Result) w :
  res r = None -> Result_dtor lib r w = Done tt w.
Proof. unfold Result_dtor. intros ->. reflexivity. Qed.

Lemma Result_dtor_owner (r : Result) h w :
  res r = Some h ->
  trace (final_world (Result_dtor lib r w)) =
    trace w ++ [Call_mysql_free_result (Some h)] /\
  cerr (final_world (Result_dtor lib r w)) = cerr w.
Proof.
  unfold Result_dtor, call. intros ->. cbn [is_null].
  destruct (mysql_free_result lib _); split; reflexivity.
Qed.

Lemma Stmt_dtor_empty (x : Stmt) w :
  stmt x = None -> Stmt_dtor lib x w = Done tt w.
Proof. unfold Stmt_dtor. intros ->. reflexivity. Qed.

Lemma Stmt_dtor_owner (x : Stmt) h w :
  stmt x = Some h ->
  trace (final_world (Stmt_dtor lib x w)) =
    trace w ++ [Call_mysql_stmt_close (Some h)].
Proof.
  unfold Stmt_dtor, bind, call, ret. intros ->. cbn [is_null].
  destruct (mysql_stmt_close lib _); reflexivity.
Qed.

(** A run that finishes without a call, followed by another run. *)
Lemma final_world_bind_silent {A B} (m : M A) (k : A -> M B) a w :
  m w = Done a w -> final_world (bind m k w) = final_world (k a w).
Proof. unfold bind. intros ->. reflexivity. Qed.

(** A run followed by one that finishes without a call. *)
Lemma final_world_bind_then_silent {A B} (m : M A) (k : A -> M B) w :
  (forall a w', exists b, k a w' = Done b w') ->
  final_world (bind m k w) = final_world (m w).
Proof.
  unfold bind. intros Hk. destruct (m w) as [a w'|w']; [|reflexivity].
  destruct (Hk a w') as [b ->]. reflexivity.
Qed.


Lemma one_more_free h w {A} (o : outcome A) p :
  p <> Some h ->
  trace (final_world o) =
    (trace w ++ [Call_mysql_free_result p]) ++ [Call_mysql_free_result (Some h)] ->
  one_more_call (frees_result h) w o.
Proof.
  intros Hp Ho. unfold one_more_call.
  rewrite Ho, !count_calls_snoc, frees_result_same, (frees_result_other _ _ Hp).
  lia.
Qed.

Lemma Result_move_ctor_once (r : Result) h w :
  res r = Some h ->
  res (snd (Result_move_ctor r)) = None /\
  Result_bool (snd (Result_move_ctor r)) = false /\
  res (fst (Result_move_ctor r)) = Some h /\
  one_more_call (frees_result h) w
    ((Result_dtor lib (snd (Result_move_ctor r)) ;;;
      Result_dtor lib (fst (Result_move_ctor r))) w) /\
  one_more_call (frees_result h) w
    ((Result_dtor lib (fst (Result_move_ctor r)) ;;;
      Result_dtor lib (snd (Result_move_ctor r))) w).
Proof.
  intros Hr. cbn [Result_move_ctor fst snd res]. unfold Result_bool.
  cbn [res is_null negb]. repeat split; [exact Hr| |].
  - unfold one_more_call.
    erewrite final_world_bind_silent by (apply Result_dtor_empty; reflexivity).
    destruct (Result_dtor_owner {| res := res r; num_fields := num_fields r |}
                h w Hr) as [-> _].
    rewrite count_calls_snoc, frees_result_same. lia.
  - unfold one_more_call.
    rewrite final_world_bind_then_silent
      by (intros; eexists; apply Result_dtor_empty; reflexivity).
    destruct (Result_dtor_owner {| res := res r; num_fields := num_fields r |}
                h w Hr) as [-> _].
    rewrite count_calls_snoc, frees_result_same. lia.
Qed.

Lemma Stmt_move_ctor_once (x : Stmt) h w :
  stmt x = Some h ->
  stmt (snd (Stmt_move_ctor x)) = None /\
  Stmt_bool (snd (Stmt_move_ctor x)) = false /\
  stmt (fst (Stmt_move_ctor x)) = Some h /\
  params (fst (Stmt_move_ctor x)) = params x /\
  one_more_call (closes_stmt h) w
    ((Stmt_dtor lib (snd (Stmt_move_ctor x)) ;;;
      Stmt_dtor lib (fst (Stmt_move_ctor x))) w) /\
  one_more_call (closes_stmt h) w
    ((Stmt_dtor lib (fst (Stmt_move_ctor x)) ;;;
      Stmt_dtor lib (snd (Stmt_move_ctor x))) w).
Proof.
  intros Hx. cbn [Stmt_move_ctor fst snd stmt params]. unfold Stmt_bool.
  cbn [stmt is_null negb]. repeat split; [exact Hx| |].
  - unfold one_more_call.
    erewrite final_world_bind_silent by (apply Stmt_dtor_empty; reflexivity).
    rewrite (Stmt_dtor_owner
               {| stmt := stmt x; count := count x; params := params x;
                  str_length := str_length x |} h w Hx).
    rewrite count_calls_snoc, closes_stmt_same. lia.
  - unfold one_more_call.
    rewrite final_world_bind_then_silent
      by (intros; eexists; apply Stmt_dtor_empty; reflexivity).
    rewrite (Stmt_dtor_owner
               {| stmt := stmt x; count := count x; params := params x;
                  str_length := str_length x |} h w Hx).
    rewrite count_calls_snoc, closes_stmt_same. lia.
Qed.

(** The store after [*this = std::move(r)] on two different objects. *)
Lemma Result_move_assign_run this r (objs : gmap nat Result) src dst w :
  this <> r ->
  objs !! r = Some src -> objs !! this = Some dst ->
  mysql_free_result lib (trace w ++ [Call_mysql_free_result (res dst)])
    = Returns tt ->
  Result_move_assign lib this r objs w =
  Done (<[r := {| res := None; num_fields := num_fields src |}]>
          (<[this := {| res := res src; num_fields := num_fields src |}]> objs))
       {| trace := trace w ++ [Call_mysql_free_result (res dst)];
          cerr := cerr w |}.
Proof.
  intros Hne Hr Hthis Hfree. unfold Result_move_assign.
  rewrite Hthis. unfold bind at 1, call at 1. rewrite Hfree.
  unfold set_res, set_num_fields. rewrite Hr. cbn [mbind option_bind].
  rewrite Hthis. cbn [mbind option_bind].
  repeat (rewrite ?lookup_insert_eq, ?insert_insert_eq;
          rewrite ?(lookup_insert_ne _ this r) by exact Hne;
          rewrite ?Hr; cbn [mbind option_bind res num_fields]).
  reflexivity.
Qed.

Lemma Stmt_move_assign_run this x (objs : gmap nat Stmt) src dst :
  this <> x ->
  objs !! x = Some src -> objs !! this = Some dst ->
  Stmt_move_assign this x objs =
  Some (<[x := {| stmt := None; count := count src; params := None;
                  str_length := str_length src |}]>
          (<[this := {| stmt := stmt src; count := count src;
                        params := params src;
                        str_length := str_length src |}]> objs)).
Proof.
  intros Hne Hx Hthis. unfold Stmt_move_assign.
  rewrite Hthis, Hx. cbn [mbind option_bind].
  repeat (rewrite ?lookup_insert_eq, ?insert_insert_eq;
          rewrite ?(lookup_insert_ne _ this x) by exact Hne;
          rewrite ?Hx; cbn [mbind option_bind stmt count params str_length]).
  reflexivity.
Qed.


(** Destroying an empty object and an owner of [h], in either order, makes
    the releasing call for [h] and no other call. *)
Lemma Result_destroy_both_trace (objs : gmap nat Result) a b e o h w :
  a <> b ->
  objs !! a = Some e -> res e = None ->
  objs !! b = Some o -> res o = Some h ->
  trace (final_world (Result_destroy_both lib a b objs w)) =
    trace w ++ [Call_mysql_free_result (Some h)] /\
  trace (final_world (Result_destroy_both lib b a objs w)) =
    trace w ++ [Call_mysql_free_result (Some h)].
Proof.
  intros Hne Ha He Hb Ho.
  unfold Result_destroy_both, Result_destroy, Result_dtor. split.
  - rewrite Ha, He. cbn [is_null]. unfold bind at 1 2, ret at 1 2.
    rewrite lookup_delete_ne by exact Hne. rewrite Hb, Ho. cbn [is_null].
    unfold bind, call, ret. destruct (mysql_free_result lib _); reflexivity.
  - rewrite Hb, Ho. cbn [is_null]. unfold bind, call, ret. cbn [trace cerr].
    destruct (mysql_free_result lib _); [|reflexivity].
    rewrite lookup_delete_ne by (intros E; apply Hne; symmetry; exact E).
    rewrite Ha, He. reflexivity.
Qed.

Lemma Stmt_destroy_both_trace (objs : gmap nat Stmt) a b e o h w :
  a <> b ->
  objs !! a = Some e -> stmt e = None ->
  objs !! b = Some o -> stmt o = Some h ->
  trace (final_world (Stmt_destroy_both lib a b objs w)) =
    trace w ++ [Call_mysql_stmt_close (Some h)] /\
  trace (final_world (Stmt_destroy_both lib b a objs w)) =
    trace w ++ [Call_mysql_stmt_close (Some h)].
Proof.
  intros Hne Ha He Hb Ho.
  unfold Stmt_destroy_both, Stmt_destroy, Stmt_dtor. split.
  - rewrite Ha, He. cbn [is_null]. unfold bind at 1 2, ret at 1 2.
    rewrite lookup_delete_ne by exact Hne. rewrite Hb, Ho. cbn [is_null].
    unfold bind, call, ret. destruct (mysql_stmt_close lib _); reflexivity.
  - rewrite Hb, Ho. cbn [is_null]. unfold bind, call, ret. cbn [trace cerr].
    destruct (mysql_stmt_close lib _); [|reflexivity].
    rewrite lookup_delete_ne by (intros E; apply Hne; symmetry; exact E).
    rewrite Ha, He. reflexivity.
Qed.

(** C8.  For a [Result] and for a [Stmt] that holds a native handle [h]:
    - move construction leaves the source without a handle (it evaluates
      false) and the new object with [h]; destroying both, in either
      order, releases [h] exactly once;
    - move assignment between two different objects does the same for the
      source and the target (for [Result], given that the target did not
      already hold [h] and that [mysql_free_result] returns). *)
Theorem move_hands_over_and_releases_once :
  (forall (r : Result) h w,
     res r = Some h ->
     res (snd (Result_move_ctor r)) = None /\
     Result_bool (snd (Result_move_ctor r)) = false /\
     res (fst (Result_move_ctor r)) = Some h /\
     one_more_call (frees_result h) w
       ((Result_dtor lib (snd (Result_move_ctor r)) ;;;
         Result_dtor lib (fst (Result_move_ctor r))) w) /\
     one_more_call (frees_result h) w
       ((Result_dtor lib (fst (Result_move_ctor r)) ;;;
         Result_dtor lib (snd (Result_move_ctor r))) w))
  /\
  (forall this r (objs : gmap nat Result) src dst h w,
     this <> r ->
     objs !! r = Some src -> res src = Some h ->
     objs !! this = Some dst -> res dst <> Some h ->
     (forall tr, mysql_free_result lib tr = Returns tt) ->
     exists objs' w',
       Result_move_assign lib this r objs w = Done objs' w' /\
       res <$> objs' !! r = Some None /\
       Result_bool <$> objs' !! r = Some false /\
       res <$> objs' !! this = Some (Some h) /\
       one_more_call (frees_result h) w
         (Result_destroy_both lib r this objs' w') /\
       one_more_call (frees_result h) w
         (Result_destroy_both lib this r objs' w'))
  /\
  (forall (x : Stmt) h w,
     stmt x = Some h ->
     stmt (snd (Stmt_move_ctor x)) = None /\
     Stmt_bool (snd (Stmt_move_ctor x)) = false /\
     stmt (fst (Stmt_move_ctor x)) = Some h /\
     params (fst (Stmt_move_ctor x)) = params x /\
     one_more_call (closes_stmt h) w
       ((Stmt_dtor lib (snd (Stmt_move_ctor x)) ;;;
         Stmt_dtor lib (fst (Stmt_move_ctor x))) w) /\
     one_more_call (closes_stmt h) w
       ((Stmt_dtor lib (fst (Stmt_move_ctor x)) ;;;
         Stmt_dtor lib (snd (Stmt_move_ctor x))) w))
  /\
  (forall this x (objs : gmap nat Stmt) src dst h w,
     this <> x ->
     objs !! x = Some src -> stmt src = Some h ->
     objs !! this = Some dst ->
     exists objs',
       Stmt_move_assign this x objs = Some objs' /\
       stmt <$> objs' !! x = Some None /\
       Stmt_bool <$> objs' !! x = Some false /\
       stmt <$> objs' !! this = Some (Some h) /\
       params <$> objs' !! this = Some (params src) /\
       one_more_call (closes_stmt h) w
         (Stmt_destroy_both lib x this objs' w) /\
       one_more_call (closes_stmt h) w
         (Stmt_destroy_both lib this x objs' w)).
Proof.
  split; [exact Result_move_ctor_once|].
  split; [|split; [exact Stmt_move_ctor_once|]].
  - intros this r objs src dst h w Hne Hr Hsrc Hthis Hdst Hfree.
    eexists _, _. split.
    { apply (Result_move_assign_run this r objs src dst w Hne Hr Hthis).
      apply Hfree. }
    rewrite lookup_insert_eq.
    rewrite lookup_insert_ne by (intros E; apply Hne; symmetry; exact E).
    rewrite lookup_insert_eq. cbn [fmap option_fmap option_map res].
    split; [reflexivity|]. split; [reflexivity|].
    split; [rewrite Hsrc; reflexivity|].
    match goal with
    | |- one_more_call _ _ (Result_destroy_both _ _ _ ?o ?w1) /\ _ =>
        destruct (Result_destroy_both_trace o r this
                    {| res := None; num_fields := num_fields src |}
                    {| res := res src; num_fields := num_fields src |} h w1)
          as [H1 H2]
    end.
    + intros E; apply Hne; symmetry; exact E.
    + apply lookup_insert_eq.
    + reflexivity.
    + rewrite lookup_insert_ne by (intros E; apply Hne; symmetry; exact E).
      apply lookup_insert_eq.
    + exact Hsrc.
    + split; eapply one_more_free; eauto.
  - intros this x objs src dst h w Hne Hx Hsrc Hthis.
    eexists. split.
    { apply (Stmt_move_assign_run this x objs src dst Hne Hx Hthis). }
    rewrite lookup_insert_eq.
    rewrite lookup_insert_ne by (intros E; apply Hne; symmetry; exact E).
    rewrite lookup_insert_eq.
    cbn [fmap option_fmap option_map stmt params].
    split; [reflexivity|]. split; [reflexivity|].
    split; [rewrite Hsrc; reflexivity|]. split; [reflexivity|].
    match goal with
    | |- one_more_call _ _ (Stmt_destroy_both _ _ _ ?o _) /\ _ =>
        destruct (Stmt_destroy_both_trace o x this
                    {| stmt := None; count := count src; params := None;
                       str_length := str_length src |}
                    {| stmt := stmt src; count := count src;
                       params := params src;
                       str_length := str_length src |} h w)
          as [H1 H2]
    end.
    + intros E; apply Hne; symmetry; exact E.
    + apply lookup_insert_eq.
    + reflexivity.
    + rewrite lookup_insert_ne by (intros E; apply Hne; symmetry; exact E).
      apply lookup_insert_eq.
    + exact Hsrc.
    + unfold one_more_call. rewrite H1, H2.
      rewrite count_calls_snoc, closes_stmt_same. split; lia.
Qed.

End MoveFacts.

Section MoveRuns.
Import Native Wrapper Scenario.

Lemma move_hands_over_and_releases_once_witness :
  (res (snd (Result_move_ctor owning_Result)) = None /\
   Result_bool (snd (Result_move_ctor owning_Result)) = false /\
   res (fst (Result_move_ctor owning_Result)) = Some 3%nat /\
   one_more_call (frees_result 3) start
     ((Result_dtor (client failing) (snd (Result_move_ctor owning_Result)) ;;;
       Result_dtor (client failing) (fst (Result_move_ctor owning_Result)))
        start) /\
   one_more_call (frees_result 3) start
     ((Result_dtor (client failing) (fst (Result_move_ctor owning_Result)) ;;;
       Result_dtor (client failing) (snd (Result_move_ctor owning_Result)))
        start))
  /\
  (exists objs' w',
     Result_move_assign (client failing) 1 0 two_Results start = Done objs' w' /\
     res <$> objs' !! 0%nat = Some None /\
     Result_bool <$> objs' !! 0%nat = Some false /\
     res <$> objs' !! 1%nat = Some (Some 3%nat) /\
     one_more_call (frees_result 3) start
       (Result_destroy_both (client failing) 0 1 objs' w') /\
     one_more_call (frees_result 3) start
       (Result_destroy_both (client failing) 1 0 objs' w'))
  /\
  (exists objs',
     Stmt_move_assign 1 0 two_Stmts = Some objs' /\
     stmt <$> objs' !! 0%nat = Some None /\
     Stmt_bool <$> objs' !! 0%nat = Some false /\
     stmt <$> objs' !! 1%nat = Some (Some 3%nat) /\
     params <$> objs' !! 1%nat = Some (params owning_Stmt) /\
     one_more_call (closes_stmt 3) start
       (Stmt_destroy_both (client failing) 0 1 objs' start) /\
     one_more_call (closes_stmt 3) start
       (Stmt_destroy_both (client failing) 1 0 objs' start)).
Proof.
  destruct (move_hands_over_and_releases_once (client failing))
    as (Hctor & Hassign & _ & Hstmt).
  split; [|split].
  - apply (Hctor owning_Result 3%nat start). reflexivity.
  - apply (Hassign 1%nat 0%nat two_Results owning_Result Result_default
                   3%nat start).
    + discriminate.
    + reflexivity.
    + reflexivity.
    + reflexivity.
    + discriminate.
    + intros tr. reflexivity.
  - apply (Hstmt 1%nat 0%nat two_Stmts owning_Stmt Stmt_default 3%nat start).
    + discriminate.
    + reflexivity.
    + reflexivity.
    + reflexivity.
Defined.

(** Assigning an object to itself is outside the statement above: a
    [Stmt] forgets its handle without closing it, a [Result] releases its
    handle and is left empty. *)
Example Stmt_self_move_assign :
  exists objs',
    Stmt_move_assign 0 0 two_Stmts = Some objs' /\
    stmt <$> objs' !! 0%nat = Some None /\
    params <$> objs' !! 0%nat = Some None.
Proof. eexists. split; [reflexivity|]. split; reflexivity. Qed.

Example Result_self_move_assign :
  exists objs',
    Result_move_assign (client failing) 0 0 two_Results start =
      Done objs' {| trace := [Call_mysql_free_result (Some 3%nat)];
                    cerr := [] |} /\
    res <$> objs' !! 0%nat = Some None.
Proof. eexists. split; reflexivity. Qed.

End MoveRuns.

(** * Further properties *)

(** ** The escaper as a whole *)

Section EscaperWhole.
Import Escaper EscaperModel.

Implicit Types (val result out rest pre : list ascii) (c p : ascii).

(** The loop from any index after the first, on the rest of the string. *)
Lemma escape_loop_rest val pre p rest result :
  Z.of_nat (length val) < size_t_modulus ->
  val = pre ++ p :: rest ->
  escape_loop val (length rest) (Z.of_nat (S (length pre))) result =
  Returned (result ++ escape_rest p rest).
Proof.
  intros Hlen. revert pre p result.
  induction rest as [|c rest IH]; intros pre p result Hval.
  - cbn. rewrite app_nil_r. reflexivity.
  - cbn [length escape_loop escape_rest].
    assert (val !! length pre = Some p) as Hp.
    { rewrite Hval. apply list_lookup_middle. reflexivity. }
    assert (val !! S (length pre) = Some c) as Hc.
    { rewrite Hval.
      replace (pre ++ p :: c :: rest) with ((pre ++ [p]) ++ c :: rest)
        by (rewrite <- app_assoc; reflexivity).
      replace (S (length pre)) with (length (pre ++ [p]))
        by (rewrite length_app; simpl; lia).
      apply list_lookup_middle. reflexivity. }
    rewrite (escape_body_later _ _ _ _ _ Hlen Hp Hc). cbn [exc_bind].
    replace (Z.of_nat (S (length pre)) + 1)
      with (Z.of_nat (S (length (pre ++ [p]))))
      by (rewrite length_app; simpl; lia).
    rewrite (IH (pre ++ [p]) c).
    + rewrite <- app_assoc. reflexivity.
    + rewrite Hval, <- app_assoc. reflexivity.
Qed.

(** Every run that returns has this shape. *)
Lemma escape_string_shape val out :
  Z.of_nat (length val) < size_t_modulus ->
  escape_string val = Returned out ->
  (val = [] /\ out = []) \/
  (exists c rest, val = c :: rest /\ is_case c = false /\
                  out = c :: escape_rest c rest).
Proof.
  intros Hlen Hout. destruct val as [|c rest].
  - left. cbn in Hout. injection Hout as <-. split; reflexivity.
  - right. exists c, rest. split; [reflexivity|].
    unfold escape_string in Hout. cbn [length escape_loop] in Hout.
    change 0 with (Z.of_nat 0) in Hout.
    rewrite (escape_body_first (c :: rest) c [] Hlen eq_refl) in Hout.
    destruct (is_case c); [discriminate|]. split; [reflexivity|].
    cbn [exc_bind] in Hout.
    change (Z.of_nat 0 + 1) with (Z.of_nat (S (length (@nil ascii)))) in Hout.
    rewrite (escape_loop_rest (c :: rest) [] c rest ([] ++ [c]) Hlen eq_refl)
      in Hout.
    injection Hout as <-. reflexivity.
Qed.

Lemma chunk_length p c : (1 <= length (chunk p c) <= 3)%nat.
Proof.
  unfold chunk, escape_form.
  destruct (is_case c), (negb (ceq p chr_backslash)), (ceq c chr_nl),
    (ceq c chr_cr), (ceq c chr_tab), (ceq c chr_ff), (ceq c chr_vt);
    simpl; lia.
Qed.

Lemma escape_rest_length p rest :
  (length rest <= length (escape_rest p rest) <= 3 * length rest)%nat.
Proof.
  revert p. induction rest as [|c rest IH]; intros p; [simpl; lia|].
  cbn [escape_rest length]. rewrite length_app.
  pose proof (chunk_length p c). specialize (IH c). lia.
Qed.

(** X1.  [escape_string] returns exactly on the empty string and on the
    strings whose first character is none of the eight special ones; on
    every other string it throws. *)
Theorem escape_string_returns_iff val :
  Z.of_nat (length val) < size_t_modulus ->
  ((exists out, escape_string val = Returned out) <->
   (forall c, val !! 0%nat = Some c -> is_case c = false))
  /\
  (escape_string val = Threw_out_of_range <->
   (exists c, val !! 0%nat = Some c /\ is_case c = true)).
Proof.
  intros Hlen.
  assert ((exists out, escape_string val = Returned out) <->
          (forall c, val !! 0%nat = Some c -> is_case c = false)) as Hiff.
  { split.
    - intros [out Hout] c Hc.
      destruct (escape_string_shape val out Hlen Hout)
        as [[-> _]|(c' & rest & -> & Hcase & _)]; [discriminate|].
      injection Hc as <-. exact Hcase.
    - apply escape_string_returns. exact Hlen. }
  split; [exact Hiff|]. split.
  - intros Hthrow. destruct val as [|c rest]; [discriminate|].
    exists c. split; [reflexivity|].
    destruct (is_case c) eqn:E; [reflexivity|].
    destruct (proj2 Hiff) as [out Hout];
      [intros c' Hc'; injection Hc' as <-; exact E|congruence].
  - intros (c & Hc & Hcase).
    destruct (escape_string val) as [out|] eqn:E; [|reflexivity].
    rewrite (proj1 Hiff (ex_intro _ out eq_refl) c Hc) in Hcase. discriminate.
Qed.

Lemma escape_string_returns_iff_witness :
  ((exists out, escape_string (list_ascii_of_string "it's") = Returned out) <->
   (forall c, list_ascii_of_string "it's" !! 0%nat = Some c ->
              is_case c = false))
  /\
  (escape_string (list_ascii_of_string "it's") = Threw_out_of_range <->
   (exists c, list_ascii_of_string "it's" !! 0%nat = Some c /\
              is_case c = true)).
Proof.
  apply (escape_string_returns_iff (list_ascii_of_string "it's")).
  reflexivity.
Defined.

(** X2.  On a string that starts with an ordinary character the result is
    that character followed, for each later character in turn, by what
    [chunk] gives for it and the character before it. *)
Theorem escape_string_by_recursion c rest :
  Z.of_nat (length (c :: rest)) < size_t_modulus ->
  is_case c = false ->
  escape_string (c :: rest) = Returned (c :: escape_rest c rest).
Proof.
  intros Hlen Hcase.
  destruct (escape_string_returns (c :: rest) Hlen) as [out Hout].
  { intros c' Hc'. injection Hc' as <-. exact Hcase. }
  destruct (escape_string_shape _ _ Hlen Hout)
    as [[E _]|(c' & rest' & E & _ & ->)]; [discriminate|].
  injection E as <- <-. exact Hout.
Qed.

Lemma escape_string_by_recursion_witness :
  escape_string ("O"%char :: list_ascii_of_string "'Brien") =
  Returned ("O"%char :: escape_rest "O"%char (list_ascii_of_string "'Brien")).
Proof.
  apply (escape_string_by_recursion "O"%char (list_ascii_of_string "'Brien")).
  - reflexivity.
  - reflexivity.
Defined.

(** X3.  A string without any of the eight special characters is returned
    unchanged. *)
Theorem escape_string_plain val :
  Z.of_nat (length val) < size_t_modulus ->
  (forall c, c ∈ val -> is_case c = false) ->
  escape_string val = Returned val.
Proof.
  intros Hlen Hplain. destruct val as [|c rest]; [reflexivity|].
  destruct (escape_string_returns (c :: rest) Hlen) as [out Hout].
  { intros c' Hc'. injection Hc' as <-. apply Hplain. left. }
  destruct (escape_string_shape _ _ Hlen Hout)
    as [[E _]|(c' & rest' & E & _ & ->)]; [discriminate|].
  injection E as <- <-. rewrite Hout. f_equal. f_equal.
  assert (forall d, d ∈ rest -> is_case d = false) as Hrest
    by (intros d Hd; apply Hplain; right; exact Hd).
  clear Hlen Hplain Hout. revert c.
  induction rest as [|d rest IH]; intros c; [reflexivity|].
  cbn [escape_rest]. unfold chunk. rewrite (Hrest d) by left.
  cbn [app]. f_equal. apply IH. intros e He. apply Hrest. right. exact He.
Qed.

Lemma escape_string_plain_witness :
  escape_string (list_ascii_of_string "SELECT 1") =
  Returned (list_ascii_of_string "SELECT 1").
Proof.
  apply (escape_string_plain (list_ascii_of_string "SELECT 1")).
  - reflexivity.
  - intros c Hc. apply list_elem_of_In in Hc. simpl in Hc.
    repeat (destruct Hc as [<-|Hc]; [reflexivity|]). destruct Hc.
Defined.

(** X4.  The result is never shorter than the input and never more than
    three times as long. *)
Theorem escape_string_length val out :
  Z.of_nat (length val) < size_t_modulus ->
  escape_string val = Returned out ->
  (length val <= length out <= 3 * length val)%nat.
Proof.
  intros Hlen Hout.
  destruct (escape_string_shape val out Hlen Hout)
    as [[-> ->]|(c & rest & -> & _ & ->)]; [simpl; lia|].
  cbn [length]. pose proof (escape_rest_length c rest). lia.
Qed.

Lemma escape_string_length_witness :
  (length ["a"%char; chr_nl; chr_quote] <=
   length ["a"%char; chr_backslash; chr_backslash; "n"%char;
           chr_backslash; chr_quote] <=
   3 * length ["a"%char; chr_nl; chr_quote])%nat.
Proof.
  apply (escape_string_length ["a"%char; chr_nl; chr_quote]).
  - reflexivity.
  - reflexivity.
Defined.


(** X5.  The one-character lookback undoes an escape that is already
    there: a quote, double quote or backslash that is escaped in the input
    is copied without a backslash of its own, after a backslash that has
    been doubled, so its occurrence in the output is not escaped. *)
Theorem escape_string_unescapes_escaped val out (i : nat) c :
  Z.of_nat (length val) < size_t_modulus ->
  escape_string val = Returned out ->
  val !! i = Some c ->
  is_quote_like c = true ->
  escaped_at val i = true ->
  exists r, escape_prefix val (S i) = Returned r /\ r `prefix_of` out /\
            last r = Some c /\ escaped_at out (pred (length r)) = false.
Proof.
  intros Hlen Hout Hc Hq Hin.
  pose proof (lookup_lt_Some _ _ _ Hc) as Hi.
  destruct (escape_string_prefix val i out) as (r0 & Hr0 & _); [lia|exact Hout|].
  destruct (escape_string_prefix val (S i) out) as (r & Hr & Hpre);
    [lia|exact Hout|].
  pose proof Hr as Hstep. rewrite escape_prefix_S, Hr0 in Hstep.
  cbn [exc_bind] in Hstep.
  exists r. split; [exact Hr|]. split; [exact Hpre|].
  pose proof (escape_prefix_pending val i r0 Hlen Hr0) as Hinv.
  unfold escaped_at in Hin. rewrite Hin in Hinv.
  pose proof (pending_last _ Hin) as Hlast.
  destruct i as [|j]; [rewrite take_0 in Hlast; discriminate|].
  destruct (lookup_lt_is_Some_2 val j) as [p Hp]; [lia|].
  rewrite (take_S_r _ _ _ Hp), last_snoc in Hlast, Hinv.
  injection Hlast as ->.
  rewrite (escape_body_later _ _ _ _ _ Hlen Hp Hc) in Hstep.
  injection Hstep as <-. unfold chunk in *.
  rewrite (quote_like_case _ Hq), (quote_like_form _ Hq) in *.
  change (ceq chr_backslash chr_backslash) with true in *.
  cbn [negb app andb] in *.
  split; [apply last_snoc|].
  destruct Hpre as [rest Hrest]. unfold escaped_at.
  rewrite length_app. cbn [length]. rewrite Nat.add_1_r. cbn [pred].
  rewrite Hrest, <- app_assoc, take_app_length. exact Hinv.
Qed.

Lemma escape_string_unescapes_escaped_witness :
  exists r,
    escape_prefix ["a"%char; chr_backslash; chr_quote] 3 = Returned r /\
    r `prefix_of` ["a"%char; chr_backslash; chr_backslash; chr_quote] /\
    last r = Some chr_quote /\
    escaped_at ["a"%char; chr_backslash; chr_backslash; chr_quote]
      (pred (length r)) = false.
Proof.
  apply (escape_string_unescapes_escaped
           ["a"%char; chr_backslash; chr_quote]
           ["a"%char; chr_backslash; chr_backslash; chr_quote]
           2 chr_quote); reflexivity.
Defined.

Lemma unescape_escape_rest p rest :
  ok_after p rest = true -> unescape (escape_rest p rest) = rest.
Proof.
  revert p. induction rest as [|c rest IH]; intros p Hok; [reflexivity|].
  cbn [ok_after] in Hok.
  apply andb_true_iff in Hok as [Hok Hrest].
  apply andb_true_iff in Hok as [Hpc Hctl].
  cbn [escape_rest]. unfold chunk.
  destruct (is_case c) eqn:Ecase.
  - destruct (is_quote_like c) eqn:Eq; [|discriminate].
    rewrite (quote_like_form _ Eq).
    destruct (ceq p chr_backslash); [discriminate|].
    cbn [negb app unescape].
    change (ceq chr_backslash chr_backslash) with true. cbn iota.
    rewrite (IH c Hrest). reflexivity.
  - cbn [app unescape]. rewrite (not_case_not_backslash _ Ecase).
    rewrite (IH c Hrest). reflexivity.
Qed.

(** X6.  Round trip.  On a string that starts with an ordinary character,
    holds none of the five control characters and has no backslash
    directly before a special character, reading the result back (every
    backslash yields the character after it) gives the input again. *)
Theorem unescape_escape_string c rest :
  Z.of_nat (length (c :: rest)) < size_t_modulus ->
  is_case c = false ->
  ok_after c rest = true ->
  exists out, escape_string (c :: rest) = Returned out /\
              unescape out = c :: rest.
Proof.
  intros Hlen Hcase Hok.
  destruct (escape_string_returns (c :: rest) Hlen) as [out Hout].
  { intros c' Hc'. injection Hc' as <-. exact Hcase. }
  exists out. split; [exact Hout|].
  destruct (escape_string_shape _ _ Hlen Hout)
    as [[E _]|(c' & rest' & E & _ & ->)]; [discriminate|].
  injection E as <- <-.
  cbn [unescape]. rewrite (not_case_not_backslash _ Hcase).
  rewrite (unescape_escape_rest c rest Hok). reflexivity.
Qed.

Lemma unescape_escape_string_witness :
  exists out,
    escape_string ("O"%char :: list_ascii_of_string "'Brien \ Co") =
      Returned out /\
    unescape out = "O"%char :: list_ascii_of_string "'Brien \ Co".
Proof.
  apply (unescape_escape_string "O"%char
           (list_ascii_of_string "'Brien \ Co")); reflexivity.
Defined.

End EscaperWhole.

(** ** Opening and closing the connection *)

Section ConnectionWhole.
Import Native Wrapper.

Variable lib : library.

Implicit Types (this : mysql) (w : world) (s : list ascii).

Ltac step_call H :=
  unfold bind at 1, call at 1; cbn [trace cerr]; rewrite H;
  cbv beta iota; cbn [trace cerr].

Lemma to_int_range z : INT_MIN <= to_int z <= INT_MAX.
Proof.
  unfold to_int, INT_MIN, INT_MAX.
  pose proof (Z.mod_pos_bound (z + 2 ^ 31) (2 ^ 32) ltac:(lia)). lia.
Qed.

Lemma to_int_congruent z : (z - to_int z) mod 2 ^ 32 = 0.
Proof.
  unfold to_int.
  rewrite (Z.mod_eq (z + 2 ^ 31) (2 ^ 32)) by lia.
  replace (z - (z + 2 ^ 31 - 2 ^ 32 * ((z + 2 ^ 31) / 2 ^ 32) - 2 ^ 31))
    with (((z + 2 ^ 31) / 2 ^ 32) * 2 ^ 32) by lia.
  apply Z.mod_mul. lia.
Qed.

Lemma is_open_cerr this w o w1 :
  is_open lib this w = Done o w1 -> cerr w1 = cerr w.
Proof.
  unfold is_open, bind, call, ret. destruct (is_null (handle this)).
  - intros H. injection H as <- <-. reflexivity.
  - cbn [trace cerr]. destruct (mysql_ping lib _); [|discriminate].
    intros H. injection H as <- <-. reflexivity.
Qed.

Lemma close_cerr this w t w1 :
  close lib this w = Done t w1 -> cerr w1 = cerr w.
Proof.
  unfold close, bind, call, ret. destruct (is_null (handle this)).
  - intros H. injection H as <- <-. reflexivity.
  - cbn [trace cerr]. destruct (mysql_close lib _); [|discriminate].
    intros H. injection H as <- <-. reflexivity.
Qed.

(** X7.  [connect] returns [true] exactly when it leaves the object with
    a handle, and a call that returns [true] has written nothing to the
    error stream. *)
Theorem connect_true_iff_open this a w b this' w' :
  connect lib this a w = Done (b, this') w' ->
  b = negb (is_null (handle this')) /\ (b = true -> cerr w' = cerr w).
Proof.
  unfold connect. unfold bind at 1.
  destruct (is_open lib this w) as [o w1|] eqn:Eo; [|discriminate].
  apply is_open_cerr in Eo. unfold bind at 1.
  destruct ((if o then close lib this else ret this) w1) as [t w2|] eqn:Ec;
    [|discriminate].
  assert (cerr w2 = cerr w) as Hcerr.
  { rewrite <- Eo. destruct o.
    - apply (close_cerr _ _ _ _ Ec).
    - unfold ret in Ec. injection Ec as <- <-. reflexivity. }
  unfold bind at 1, call at 1.
  destruct (mysql_init lib _) as [h0|]; [|discriminate].
  destruct h0 as [h0|]; cbn [is_null].
  - unfold bind at 1, call at 1. cbn [trace cerr].
    destruct (mysql_real_connect lib _) as [h|]; [|discriminate].
    destruct h as [h|]; cbn [is_null negb].
    + unfold ret. intros H. injection H as <- <- <-.
      split; [reflexivity|]. intros _. exact Hcerr.
    + unfold bind, call, print, ret. cbn [trace cerr].
      destruct (mysql_error lib _); [|discriminate]. cbn [trace cerr].
      destruct (mysql_close lib _); [|discriminate].
      intros H. injection H as <- <- <-.
      split; [reflexivity|]. discriminate.
  - unfold ret. intros H. injection H as <- <- <-.
    split; [reflexivity|]. discriminate.
Qed.


(** X8.  Reconnecting over a live connection: when the probe of the
    handle held succeeds, [connect] closes that handle, takes a fresh one
    from [mysql_init] and connects it; on success the object holds the
    fresh handle (the one [mysql_init] gave, whatever pointer
    [mysql_real_connect] returned) and four native calls were made. *)
Theorem connect_replaces_live_connection a w h h0 h1 :
  let t1 := trace w ++ [Call_mysql_ping (Some h)] in
  let t2 := t1 ++ [Call_mysql_close (Some h)] in
  let t3 := t2 ++ [Call_mysql_init] in
  let t4 := t3 ++ [Call_mysql_real_connect (Some h0) a] in
  mysql_ping lib t1 = Returns 0 ->
  mysql_close lib t2 = Returns tt ->
  mysql_init lib t3 = Returns (Some h0) ->
  mysql_real_connect lib t4 = Returns (Some h1) ->
  connect lib {| handle := Some h |} a w =
  Done (true, {| handle := Some h0 |}) {| trace := t4; cerr := cerr w |}.
Proof.
  cbv zeta. intros Hp Hc Hi Hr. unfold connect, is_open. cbn [handle is_null].
  unfold bind at 1. step_call Hp. unfold ret at 1. cbn [Z.eqb].
  unfold bind at 1. unfold close. cbn [handle is_null].
  step_call Hc. unfold ret at 1.
  step_call Hi. cbn [is_null]. step_call Hr. reflexivity.
Qed.

(** X9.  Reconnecting over a dead connection: when the probe of the
    handle held fails, [connect] does not close that handle; it is
    overwritten by the fresh one and never passed to [mysql_close]. *)
Theorem connect_abandons_dead_connection a w h x h0 h1 :
  let t1 := trace w ++ [Call_mysql_ping (Some h)] in
  let t3 := t1 ++ [Call_mysql_init] in
  let t4 := t3 ++ [Call_mysql_real_connect (Some h0) a] in
  mysql_ping lib t1 = Returns x ->
  x <> 0 ->
  mysql_init lib t3 = Returns (Some h0) ->
  mysql_real_connect lib t4 = Returns (Some h1) ->
  connect lib {| handle := Some h |} a w =
  Done (true, {| handle := Some h0 |}) {| trace := t4; cerr := cerr w |}.
Proof.
  cbv zeta. intros Hp Hx Hi Hr. unfold connect, is_open. cbn [handle is_null].
  unfold bind at 1. step_call Hp. unfold ret at 1.
  apply Z.eqb_neq in Hx. rewrite Hx.
  unfold bind at 1, ret at 1.
  step_call Hi. cbn [is_null]. step_call Hr. reflexivity.
Qed.

(** X10.  Closing twice: whatever the object holds, two calls of [close]
    in a row pass the handle to [mysql_close] at most once (once when
    there is a handle, never when there is none), and the object that
    comes out holds no handle. *)
Theorem close_twice_releases_once this w :
  trace (final_world ((t <- close lib this ;; close lib t) w)) =
    trace w ++ (if is_null (handle this) then []
                else [Call_mysql_close (handle this)])
  /\ (forall t' w', (t <- close lib this ;; close lib t) w = Done t' w' ->
                    handle t' = None).
Proof.
  unfold close at 1 3. destruct (handle this) as [h|] eqn:Eh; cbn [is_null].
  - unfold bind, call, ret. cbn [trace cerr].
    destruct (mysql_close lib _); cbn [final_world trace].
    + unfold close. cbn [handle is_null]. unfold ret. cbn [final_world trace].
      split; [reflexivity|]. intros t' w' H. injection H as <- <-. reflexivity.
    + split; [reflexivity|]. discriminate.
  - unfold bind, ret. unfold close. rewrite Eh. cbn [is_null]. unfold ret.
    cbn [final_world]. rewrite app_nil_r.
    split; [reflexivity|]. intros t' w' H. injection H as <- <-. exact Eh.
Qed.

(** X11.  On an open connection [insert_id] and [affected_rows] return the
    native 64-bit value narrowed to [int]: a value in [INT_MIN..INT_MAX]
    congruent to it modulo 2^32, equal to it when it fits. *)
Theorem insert_id_affected_rows_narrowed h w v v' :
  mysql_insert_id lib (trace w ++ [Call_mysql_insert_id (Some h)])
    = Returns v ->
  mysql_affected_rows lib (trace w ++ [Call_mysql_affected_rows (Some h)])
    = Returns v' ->
  (exists r w', insert_id lib {| handle := Some h |} w = Done r w' /\
                INT_MIN <= r <= INT_MAX /\ (v - r) mod 2 ^ 32 = 0 /\
                (INT_MIN <= v <= INT_MAX -> r = v))
  /\
  (exists r w', affected_rows lib {| handle := Some h |} w = Done r w' /\
                INT_MIN <= r <= INT_MAX /\ (v' - r) mod 2 ^ 32 = 0 /\
                (INT_MIN <= v' <= INT_MAX -> r = v')).
Proof.
  intros Hv Hv'. split.
  - exists (to_int v). eexists. split.
    { unfold insert_id. cbn [handle is_null negb]. step_call Hv. reflexivity. }
    split; [apply to_int_range|]. split; [apply to_int_congruent|].
    apply to_int_small.
  - exists (to_int v'). eexists. split.
    { unfold affected_rows. cbn [handle is_null negb]. step_call Hv'.
      reflexivity. }
    split; [apply to_int_range|]. split; [apply to_int_congruent|].
    apply to_int_small.
Qed.


(** X12.  A query that succeeds and has a result set: [query] makes three
    native calls (the query, [mysql_use_result], [mysql_num_fields] on the
    result set), writes nothing to the error stream, and returns a
    [Result] that holds the result set, evaluates true and caches the
    column count narrowed to [int]. *)
Theorem query_with_result_set this s w r n :
  let q := Call_mysql_real_query (handle this) s (Z.of_nat (length s)) in
  let u := Call_mysql_use_result (handle this) in
  let f := Call_mysql_num_fields (Some r) in
  mysql_real_query lib (trace w ++ [q]) = Returns 0 ->
  mysql_use_result lib ((trace w ++ [q]) ++ [u]) = Returns (Some r) ->
  mysql_num_fields lib (((trace w ++ [q]) ++ [u]) ++ [f]) = Returns n ->
  exists result,
    query lib this s w =
      Done result {| trace := ((trace w ++ [q]) ++ [u]) ++ [f];
                     cerr := cerr w |} /\
    res result = Some r /\ Result_bool result = true /\
    num_fields result = to_int n /\
    (0 <= n <= INT_MAX -> num_fields result = n).
Proof.
  cbv zeta. intros Hq Hu Hn. eexists. split.
  { unfold query. step_call Hq. cbn [Z.eqb negb]. unfold use_result.
    step_call Hu. cbn [is_null]. unfold bind at 1, ret at 1.
    unfold Result_from. step_call Hn. reflexivity. }
  cbn [res num_fields]. repeat split.
  intros Hrange. apply to_int_small. unfold INT_MIN, INT_MAX in *. lia.
Qed.


(** X14.  [prepare] does not check what [mysql_stmt_init] returns: when it
    returns null, the null statement is passed to [mysql_stmt_prepare]. *)
Theorem prepare_passes_null_statement this s w :
  let i := Call_mysql_stmt_init (handle this) in
  mysql_stmt_init lib (trace w ++ [i]) = Returns None ->
  ((trace w ++ [i]) ++
     [Call_mysql_stmt_prepare None s (Z.of_nat (length s))]) `prefix_of`
    trace (final_world (prepare lib this s w)).
Proof.
  cbv zeta. intros Hi.
  assert (prepare lib this s w =
          (x <- call (Call_mysql_stmt_prepare None s (Z.of_nat (length s)))
                  (mysql_stmt_prepare lib) ;;
           if negb (x =? 0) then ret Stmt_default else Stmt_from lib None)
            {| trace := trace w ++ [Call_mysql_stmt_init (handle this)];
               cerr := cerr w |}) as ->.
  { unfold prepare. step_call Hi. reflexivity. }
  unfold bind at 1, call at 1. cbn [trace cerr].
  destruct (mysql_stmt_prepare lib _) as [x|]; cbn [final_world trace];
    [|reflexivity].
  destruct (negb (x =? 0)).
  - reflexivity.
  - unfold Stmt_from, bind, call, ret. cbn [trace cerr].
    destruct (mysql_stmt_param_count lib _); cbn [final_world trace];
      apply prefix_app_r; reflexivity.
Qed.

(** X15.  When preparation fails, the statement handle that
    [mysql_stmt_init] gave is lost: the [Stmt] returned does not hold it,
    and neither [prepare] nor the destructor of that [Stmt] passes it to
    [mysql_stmt_close]. *)
Theorem prepare_failure_leaks_statement this s w h x :
  let i := Call_mysql_stmt_init (handle this) in
  let e := Call_mysql_stmt_prepare (Some h) s (Z.of_nat (length s)) in
  mysql_stmt_init lib (trace w ++ [i]) = Returns (Some h) ->
  mysql_stmt_prepare lib ((trace w ++ [i]) ++ [e]) = Returns x ->
  x <> 0 ->
  exists st w',
    (st <- prepare lib this s ;; Stmt_dtor lib st ;;; ret st) w = Done st w' /\
    stmt st = None /\
    count_calls (closes_stmt h) (trace w') = count_calls (closes_stmt h) (trace w).
Proof.
  cbv zeta. intros Hi He Hx. eexists _, _. split.
  { unfold prepare. unfold bind at 1. step_call Hi. step_call He.
    apply Z.eqb_neq in Hx. rewrite Hx. cbn [negb]. reflexivity. }
  split; [reflexivity|]. cbn [trace].
  unfold count_calls. rewrite !List.filter_app. cbn [List.filter closes_stmt].
  rewrite !app_nil_r. reflexivity.
Qed.

End ConnectionWhole.

Section ConnectionWholeRuns.
Import Native Wrapper Scenario Samples.

Lemma connect_true_iff_open_witness :
  true = negb (is_null (handle {| handle := Some 1%nat |})) /\
  (true = true ->
   cerr {| trace := [Call_mysql_init;
                     Call_mysql_real_connect (Some 1%nat) local_args];
           cerr := [] |} = cerr start).
Proof.
  apply (connect_true_iff_open (client serving) closed_connection local_args
           start true {| handle := Some 1%nat |}
           {| trace := [Call_mysql_init;
                        Call_mysql_real_connect (Some 1%nat) local_args];
              cerr := [] |}).
  reflexivity.
Defined.

Lemma connect_replaces_live_connection_witness :
  connect (client serving) {| handle := Some 5%nat |} local_args start =
  Done (true, {| handle := Some 1%nat |})
       {| trace := [Call_mysql_ping (Some 5%nat);
                    Call_mysql_close (Some 5%nat);
                    Call_mysql_init;
                    Call_mysql_real_connect (Some 1%nat) local_args];
          cerr := [] |}.
Proof.
  apply (connect_replaces_live_connection (client serving) local_args start
           5%nat 1%nat 1%nat); reflexivity.
Defined.

Lemma connect_abandons_dead_connection_witness :
  connect stale_client {| handle := Some 5%nat |} local_args start =
  Done (true, {| handle := Some 2%nat |})
       {| trace := [Call_mysql_ping (Some 5%nat);
                    Call_mysql_init;
                    Call_mysql_real_connect (Some 2%nat) local_args];
          cerr := [] |}.
Proof.
  apply (connect_abandons_dead_connection stale_client local_args start
           5%nat 1 2%nat 2%nat).
  - reflexivity.
  - discriminate.
  - reflexivity.
  - reflexivity.
Defined.

Lemma insert_id_affected_rows_narrowed_witness :
  (exists r w', insert_id stale_client {| handle := Some 5%nat |} start
                  = Done r w' /\
                INT_MIN <= r <= INT_MAX /\
                (4294967295 - r) mod 2 ^ 32 = 0 /\
                (INT_MIN <= 4294967295 <= INT_MAX -> r = 4294967295))
  /\
  (exists r w', affected_rows stale_client {| handle := Some 5%nat |} start
                  = Done r w' /\
                INT_MIN <= r <= INT_MAX /\
                (18446744073709551615 - r) mod 2 ^ 32 = 0 /\
                (INT_MIN <= 18446744073709551615 <= INT_MAX ->
                 r = 18446744073709551615)).
Proof.
  apply (insert_id_affected_rows_narrowed stale_client 5%nat start
           4294967295 18446744073709551615); reflexivity.
Defined.

(** Both come out as -1, the value the two members return on a closed
    connection. *)
Example insert_id_of_large_value :
  insert_id stale_client {| handle := Some 5%nat |} start =
    Done (-1) {| trace := [Call_mysql_insert_id (Some 5%nat)]; cerr := [] |}
  /\ affected_rows stale_client {| handle := Some 5%nat |} start =
    Done (-1) {| trace := [Call_mysql_affected_rows (Some 5%nat)];
                 cerr := [] |}.
Proof. split; reflexivity. Qed.

Lemma query_with_result_set_witness :
  exists result,
    query (client serving) open_connection sql_do start =
      Done result
           {| trace := [Call_mysql_real_query (Some 1%nat) sql_do 4;
                        Call_mysql_use_result (Some 1%nat);
                        Call_mysql_num_fields (Some 9%nat)];
              cerr := [] |} /\
    res result = Some 9%nat /\ Result_bool result = true /\
    num_fields result = to_int 2 /\
    (0 <= 2 <= INT_MAX -> num_fields result = 2).
Proof.
  apply (query_with_result_set (client serving) open_connection sql_do start
           9%nat 2); reflexivity.
Defined.


Lemma prepare_passes_null_statement_witness :
  [Call_mysql_stmt_init (Some 1%nat); Call_mysql_stmt_prepare None sql_do 4]
    `prefix_of`
  trace (final_world (prepare stale_client open_connection sql_do start)).
Proof.
  apply (prepare_passes_null_statement stale_client open_connection sql_do
           start).
  reflexivity.
Defined.

Lemma prepare_failure_leaks_statement_witness :
  exists st w',
    (st <- prepare (client failing) open_connection sql_do ;;
     Stmt_dtor (client failing) st ;;; ret st) start = Done st w' /\
    stmt st = None /\
    count_calls (closes_stmt 7) (trace w') =
      count_calls (closes_stmt 7) (trace start).
Proof.
  apply (prepare_failure_leaks_statement (client failing) open_connection
           sql_do start 7%nat 1).
  - reflexivity.
  - reflexivity.
  - discriminate.
Defined.

End ConnectionWholeRuns.

(** ** Binding parameters *)

Section BindingFacts.
Import Native Wrapper Binding.

Implicit Types (this : Stmt) (i j n : Z) (a : arg).

Lemma slot_nonneg this i b : slot this i = Some b -> 0 <= i.
Proof.
  unfold slot. destruct (params this); [|discriminate].
  destruct (0 <=? i) eqn:E; [|discriminate]. intros _. apply Z.leb_le. exact E.
Qed.

(** What [bind_param] leaves alone. *)
Lemma bind_param_frame this i bt buf len nul lp this' :
  bind_param this i bt buf len nul lp = Some this' ->
  stmt this' = stmt this /\ count this' = count this /\
  str_length this' = str_length this /\
  length <$> params this' = length <$> params this /\
  (forall j, j <> i -> slot this' j = slot this j).
Proof.
  unfold bind_param. destruct (slot this i) as [b|] eqn:Hslot.
  2:{ destruct (params this); discriminate. }
  pose proof (slot_nonneg _ _ _ Hslot) as Hi.
  destruct (params this) as [arr|] eqn:Hp; [|discriminate].
  intros H. injection H as <-. cbn [stmt count str_length params].
  repeat split.
  - cbn. rewrite length_insert. reflexivity.
  - intros j Hj. unfold slot. cbn [params]. rewrite Hp.
    destruct (0 <=? j) eqn:E; [|reflexivity]. apply Z.leb_le in E.
    apply list_lookup_insert_ne. intros Heq. apply Hj.
    apply Z2Nat.inj in Heq; lia.
Qed.

Lemma bind_param_defined this i bt buf len nul lp :
  is_Some (bind_param this i bt buf len nul lp) <-> is_Some (slot this i).
Proof.
  split.
  - unfold bind_param. intros [t H].
    destruct (params this); [|discriminate].
    destruct (slot this i); [eauto|discriminate].
  - intros [b Hb].
    destruct (bind_param_slot this i bt buf len nul lp b Hb) as (t & Ht & _).
    eauto.
Qed.

Lemma bind_arg_frame this n a this' :
  bind_arg this n a = Some this' ->
  stmt this' = stmt this /\ count this' = count this /\
  str_length this' = str_length this /\
  length <$> params this' = length <$> params this /\
  (forall j, j <> n -> slot this' j = slot this j).
Proof.
  destruct a; cbn [bind_arg]; unfold bind_param_int, bind_param_string;
    apply bind_param_frame.
Qed.

Lemma bind_arg_defined this n a :
  is_Some (bind_arg this n a) <-> is_Some (slot this n).
Proof.
  destruct a; cbn [bind_arg]; unfold bind_param_int, bind_param_string;
    apply bind_param_defined.
Qed.

(** The slot written depends on the position and the argument only. *)
Lemma bind_arg_written this1 this2 n a t1 t2 :
  bind_arg this1 n a = Some t1 -> bind_arg this2 n a = Some t2 ->
  slot t1 n = slot t2 n /\ is_Some (slot t1 n).
Proof.
  intros H1 H2.
  destruct (proj1 (bind_arg_defined this1 n a) (ex_intro _ t1 H1)) as [b1 Hb1].
  destruct (proj1 (bind_arg_defined this2 n a) (ex_intro _ t2 H2)) as [b2 Hb2].
  destruct a; cbn [bind_arg] in *; unfold bind_param_int, bind_param_string in *.
  - destruct (bind_param_slot this1 n MYSQL_TYPE_LONG (Buffer_int x) (to_int 0)
                None Length_null b1 Hb1) as (u1 & Hu1 & Hs1).
    destruct (bind_param_slot this2 n MYSQL_TYPE_LONG (Buffer_int x) (to_int 0)
                None Length_null b2 Hb2) as (u2 & Hu2 & Hs2).
    rewrite H1 in Hu1. rewrite H2 in Hu2.
    injection Hu1 as <-. injection Hu2 as <-.
    rewrite Hs1, Hs2. split; [reflexivity|eauto].
  - destruct (bind_param_slot this1 n MYSQL_TYPE_STRING (Buffer_chars x)
                (to_int (Z.of_nat (length x))) None (Length_of_slot n) b1 Hb1)
      as (u1 & Hu1 & Hs1).
    destruct (bind_param_slot this2 n MYSQL_TYPE_STRING (Buffer_chars x)
                (to_int (Z.of_nat (length x))) None (Length_of_slot n) b2 Hb2)
      as (u2 & Hu2 & Hs2).
    rewrite H1 in Hu1. rewrite H2 in Hu2.
    injection Hu1 as <-. injection Hu2 as <-.
    rewrite Hs1, Hs2. split; [reflexivity|eauto].
Qed.

(** X16.  [bind_param] for an [int] or a [std::string] is defined exactly
    when the position is inside the array, and then changes that one slot
    only: the statement handle, the count, the number of slots and every
    other slot are as before. *)
Theorem bind_arg_changes_one_slot this n a :
  (is_Some (bind_arg this n a) <-> is_Some (slot this n)) /\
  (forall this', bind_arg this n a = Some this' ->
     stmt this' = stmt this /\ count this' = count this /\
     length <$> params this' = length <$> params this /\
     is_Some (slot this' n) /\
     (forall j, j <> n -> slot this' j = slot this j)).
Proof.
  split; [apply bind_arg_defined|]. intros this' H.
  destruct (bind_arg_frame _ _ _ _ H) as (Hs & Hc & _ & Hl & Hf).
  repeat split; try assumption.
  apply (bind_arg_written this this n a this' this' H H).
Qed.


Lemma bind_param_run this i bt buf len nul lp arr b :
  params this = Some arr -> slot this i = Some b ->
  bind_param this i bt buf len nul lp =
  Some {| stmt := stmt this; count := count this;
          params := Some (<[Z.to_nat i :=
                             {| buffer_type := bt; buffer := buf;
                                buffer_length := to_ulong len;
                                is_null_p := nul; length_ptr := lp |}]> arr);
          str_length := str_length this |}.
Proof. unfold bind_param. intros -> ->. reflexivity. Qed.

Lemma bind_param_undefined this i bt buf len nul lp :
  slot this i = None -> bind_param this i bt buf len nul lp = None.
Proof.
  unfold bind_param. intros ->. destruct (params this); reflexivity.
Qed.

Lemma slot_params this i b :
  slot this i = Some b -> exists arr, params this = Some arr.
Proof. unfold slot. destruct (params this); [eauto|discriminate]. Qed.

Lemma bind_param_twice this i bt buf len nul lp bt' buf' len' nul' lp' t1 :
  bind_param this i bt buf len nul lp = Some t1 ->
  bind_param t1 i bt' buf' len' nul' lp' =
  bind_param this i bt' buf' len' nul' lp'.
Proof.
  intros H1.
  destruct (proj1 (bind_param_defined this i bt buf len nul lp)
              (ex_intro _ t1 H1)) as [b Hb].
  destruct (slot_params _ _ _ Hb) as [arr Harr].
  rewrite (bind_param_run _ _ _ _ _ _ _ arr b Harr Hb) in H1.
  injection H1 as <-.
  destruct (bind_param_slot this i bt buf len nul lp b Hb) as (u & Hu & Hs).
  rewrite (bind_param_run _ _ _ _ _ _ _ arr b Harr Hb) in Hu.
  injection Hu as <-.
  erewrite bind_param_run; [|reflexivity|exact Hs].
  rewrite (bind_param_run this i bt' buf' len' nul' lp' arr b Harr Hb).
  cbn [stmt count str_length]. rewrite list_insert_insert_eq. reflexivity.
Qed.

Lemma bind_param_commute this i j bt buf len nul lp bt' buf' len' nul' lp' :
  i <> j ->
  (t1 ← bind_param this i bt buf len nul lp;
   bind_param t1 j bt' buf' len' nul' lp') =
  (t2 ← bind_param this j bt' buf' len' nul' lp';
   bind_param t2 i bt buf len nul lp).
Proof.
  intros Hne.
  destruct (slot this i) as [bi|] eqn:Hi.
  2:{ rewrite (bind_param_undefined this i) by exact Hi. cbn.
      destruct (bind_param this j bt' buf' len' nul' lp') as [t2|] eqn:Ej;
        [|reflexivity].
      cbn. symmetry. apply bind_param_undefined.
      destruct (bind_param_frame _ _ _ _ _ _ _ _ Ej) as (_ & _ & _ & _ & Hf).
      rewrite (Hf i Hne). exact Hi. }
  destruct (slot this j) as [bj|] eqn:Hj.
  2:{ rewrite (bind_param_undefined this j) by exact Hj. cbn.
      destruct (bind_param this i bt buf len nul lp) as [t1|] eqn:Ei;
        [|reflexivity].
      cbn. apply bind_param_undefined.
      destruct (bind_param_frame _ _ _ _ _ _ _ _ Ei) as (_ & _ & _ & _ & Hf).
      rewrite (Hf j (not_eq_sym Hne)). exact Hj. }
  destruct (slot_params _ _ _ Hi) as [arr Harr].
  pose proof (slot_nonneg _ _ _ Hi) as Hi0.
  pose proof (slot_nonneg _ _ _ Hj) as Hj0.
  rewrite (bind_param_run this i bt buf len nul lp arr bi Harr Hi).
  rewrite (bind_param_run this j bt' buf' len' nul' lp' arr bj Harr Hj).
  cbn [mbind option_bind].
  assert (Z.to_nat i <> Z.to_nat j) as Hnat
    by (intros E; apply Hne; apply Z2Nat.inj in E; lia).
  erewrite bind_param_run; [|reflexivity|].
  2:{ unfold slot in *. cbn [params]. rewrite Harr in Hj.
      destruct (0 <=? j); [|discriminate].
      rewrite list_lookup_insert_ne by exact Hnat. exact Hj. }
  erewrite bind_param_run; [|reflexivity|].
  2:{ unfold slot in *. cbn [params]. rewrite Harr in Hi.
      destruct (0 <=? i); [|discriminate].
      rewrite list_lookup_insert_ne by (apply not_eq_sym; exact Hnat).
      exact Hi. }
  cbn [stmt count str_length].
  rewrite (list_insert_insert_ne arr (Z.to_nat i) (Z.to_nat j)) by exact Hnat.
  reflexivity.
Qed.

(** X17.  Bindings compose slot by slot: binding a position again
    replaces the earlier binding, so only the last one counts, and
    bindings of two different positions give the same statement in either
    order. *)
Theorem bind_arg_last_wins_and_commutes this n m a b :
  (forall t1, bind_arg this n a = Some t1 ->
              bind_arg t1 n b = bind_arg this n b) /\
  (n <> m ->
   (t1 ← bind_arg this n a; bind_arg t1 m b) =
   (t2 ← bind_arg this m b; bind_arg t2 n a)).
Proof.
  split.
  - intros t1. destruct a, b; cbn [bind_arg];
      unfold bind_param_int, bind_param_string; apply bind_param_twice.
  - intros Hne. destruct a, b; cbn [bind_arg];
      unfold bind_param_int, bind_param_string;
      apply bind_param_commute; exact Hne.
Qed.





End BindingFacts.

Section BindingRuns.
Import Native Wrapper Binding Samples.

Lemma bind_arg_changes_one_slot_witness :
  exists this',
    bind_arg three_slots 1 (Arg_string (list_ascii_of_string "abc"))
      = Some this' /\
    stmt this' = stmt three_slots /\ count this' = count three_slots /\
    length <$> params this' = length <$> params three_slots /\
    is_Some (slot this' 1) /\
    (forall j, j <> 1 -> slot this' j = slot three_slots j).
Proof.
  destruct (bind_arg_changes_one_slot three_slots 1
              (Arg_string (list_ascii_of_string "abc"))) as [Hdef Hframe].
  destruct (proj2 Hdef) as [this' H]; [eexists; reflexivity|].
  exists this'. split; [exact H|]. apply Hframe. exact H.
Defined.

Lemma bind_arg_last_wins_and_commutes_witness :
  bind_arg three_slots 0 (Arg_int 5) ≫=
    (fun t1 => bind_arg t1 0 (Arg_string (list_ascii_of_string "x")))
  = bind_arg three_slots 0 (Arg_string (list_ascii_of_string "x"))
  /\
  bind_arg three_slots 0 (Arg_int 5) ≫=
    (fun t1 => bind_arg t1 2 (Arg_string (list_ascii_of_string "x")))
  = bind_arg three_slots 2 (Arg_string (list_ascii_of_string "x")) ≫=
    (fun t2 => bind_arg t2 0 (Arg_int 5)).
Proof.
  split.
  - destruct (bind_arg_last_wins_and_commutes three_slots 0 0 (Arg_int 5)
                (Arg_string (list_ascii_of_string "x"))) as [H _].
    destruct (bind_arg three_slots 0 (Arg_int 5)) as [t1|] eqn:E;
      [|discriminate E].
    cbn [mbind option_bind]. apply H. reflexivity.
  - apply (bind_arg_last_wins_and_commutes three_slots 0 2 (Arg_int 5)
             (Arg_string (list_ascii_of_string "x"))).
    discriminate.
Defined.


(** Four arguments for three slots. *)
Example _execute_too_many_arguments :
  _execute three_slots 0 [Arg_int 1; Arg_int 2; Arg_int 3; Arg_int 4] = None.
Proof. reflexivity. Qed.

End BindingRuns.

(** ** What move assignment does with the target's own handle *)

Section MoveWhole.
Import Native Wrapper.

Variable lib : library.

Lemma closes_stmt_other h p :
  p <> Some h -> closes_stmt h (Call_mysql_stmt_close p) = false.
Proof.
  intros Hp. destruct p as [h'|]; [|reflexivity]. simpl.
  apply Nat.eqb_neq. congruence.
Qed.

Lemma Result_destroy_both_eq (objs : gmap nat Result) a b oa ob w :
  a <> b -> objs !! a = Some oa -> objs !! b = Some ob ->
  Result_destroy_both lib a b objs w =
  (Result_dtor lib oa ;;; Result_dtor lib ob ;;; ret (delete b (delete a objs)))
    w.
Proof.
  intros Hne Ha Hb. unfold Result_destroy_both, Result_destroy.
  rewrite Ha. unfold bind, ret. destruct (Result_dtor lib oa w); [|reflexivity].
  rewrite lookup_delete_ne by exact Hne. rewrite Hb. reflexivity.
Qed.

Lemma Stmt_destroy_both_eq (objs : gmap nat Stmt) a b oa ob w :
  a <> b -> objs !! a = Some oa -> objs !! b = Some ob ->
  Stmt_destroy_both lib a b objs w =
  (Stmt_dtor lib oa ;;; Stmt_dtor lib ob ;;; ret (delete b (delete a objs))) w.
Proof.
  intros Hne Ha Hb. unfold Stmt_destroy_both, Stmt_destroy.
  rewrite Ha. unfold bind, ret. destruct (Stmt_dtor lib oa w); [|reflexivity].
  rewrite lookup_delete_ne by exact Hne. rewrite Hb. reflexivity.
Qed.

(** A destructor makes at most the releasing call for the handle held. *)
Lemma Result_dtor_trace (o : Result) w :
  trace (final_world (Result_dtor lib o w)) =
  trace w ++ (if is_null (res o) then []
              else [Call_mysql_free_result (res o)]).
Proof.
  unfold Result_dtor, call, ret. destruct (is_null (res o)).
  - cbn. rewrite app_nil_r. reflexivity.
  - destruct (mysql_free_result lib _); reflexivity.
Qed.

Lemma Stmt_dtor_trace (o : Stmt) w :
  trace (final_world (Stmt_dtor lib o w)) =
  trace w ++ (if is_null (stmt o) then []
              else [Call_mysql_stmt_close (stmt o)]).
Proof.
  unfold Stmt_dtor, bind, call, ret. destruct (is_null (stmt o)).
  - cbn. rewrite app_nil_r. reflexivity.
  - cbn [trace cerr]. destruct (mysql_stmt_close lib _); reflexivity.
Qed.

Lemma count_calls_app f (t1 t2 : history) :
  count_calls f (t1 ++ t2) = (count_calls f t1 + count_calls f t2)%nat.
Proof. unfold count_calls. rewrite List.filter_app, length_app. reflexivity. Qed.

Lemma count_free_of (h : nat) (p : MYSQL_RES_p) :
  count_calls (frees_result h)
    (if is_null p then [] else [Call_mysql_free_result p]) =
  if decide (p = Some h) then 1%nat else 0%nat.
Proof.
  destruct p as [h'|]; cbn; [|reflexivity].
  unfold count_calls. cbn. destruct (Nat.eqb_spec h' h) as [->|Hne].
  - rewrite decide_True by reflexivity. reflexivity.
  - rewrite decide_False by congruence. reflexivity.
Qed.

Lemma count_close_of (h : nat) (p : MYSQL_STMT_p) :
  count_calls (closes_stmt h)
    (if is_null p then [] else [Call_mysql_stmt_close p]) =
  if decide (p = Some h) then 1%nat else 0%nat.
Proof.
  destruct p as [h'|]; cbn; [|reflexivity].
  unfold count_calls. cbn. destruct (Nat.eqb_spec h' h) as [->|Hne].
  - rewrite decide_True by reflexivity. reflexivity.
  - rewrite decide_False by congruence. reflexivity.
Qed.

(** Destroying two objects of a store, in the given order, releases each
    handle held once, as far as the run gets. *)
Lemma Result_destroy_both_count (objs : gmap nat Result) a b oa ob h w :
  a <> b -> objs !! a = Some oa -> objs !! b = Some ob ->
  (forall tr, mysql_free_result lib tr = Returns tt) ->
  count_calls (frees_result h)
    (trace (final_world (Result_destroy_both lib a b objs w))) =
  (count_calls (frees_result h) (trace w)
   + (if decide (res oa = Some h) then 1 else 0)
   + (if decide (res ob = Some h) then 1 else 0))%nat.
Proof.
  intros Hne Ha Hb Hfree.
  rewrite (Result_destroy_both_eq objs a b oa ob w Hne Ha Hb).
  unfold bind at 1.
  pose proof (Result_dtor_trace oa w) as H1.
  destruct (Result_dtor lib oa w) as [[] w1|w1] eqn:E1.
  2:{ unfold Result_dtor, call in E1. destruct (is_null (res oa));
        [discriminate|]. rewrite Hfree in E1. discriminate. }
  cbn [final_world] in H1. unfold bind at 1.
  pose proof (Result_dtor_trace ob w1) as H2.
  destruct (Result_dtor lib ob w1) as [[] w2|w2] eqn:E2.
  2:{ unfold Result_dtor, call in E2. destruct (is_null (res ob));
        [discriminate|]. rewrite Hfree in E2. discriminate. }
  cbn [final_world] in H2. unfold ret. cbn [final_world].
  rewrite H2, H1, !count_calls_app, !count_free_of. reflexivity.
Qed.

Lemma Stmt_destroy_both_count (objs : gmap nat Stmt) a b oa ob h w :
  a <> b -> objs !! a = Some oa -> objs !! b = Some ob ->
  stmt oa <> Some h -> stmt ob <> Some h ->
  count_calls (closes_stmt h)
    (trace (final_world (Stmt_destroy_both lib a b objs w))) =
  count_calls (closes_stmt h) (trace w).
Proof.
  intros Hne Ha Hb Hoa Hob.
  rewrite (Stmt_destroy_both_eq objs a b oa ob w Hne Ha Hb).
  unfold bind at 1.
  pose proof (Stmt_dtor_trace oa w) as H1.
  destruct (Stmt_dtor lib oa w) as [[] w1|w1] eqn:E1; cbn [final_world] in *.
  - unfold bind at 1.
    pose proof (Stmt_dtor_trace ob w1) as H2.
    destruct (Stmt_dtor lib ob w1) as [[] w2|w2] eqn:E2; cbn [final_world] in *;
      unfold ret; cbn [final_world];
      rewrite H2, H1, !count_calls_app, !count_close_of,
        !decide_False by assumption; lia.
  - rewrite H1, count_calls_app, count_close_of, decide_False by assumption.
    lia.
Qed.


(** X19.  Move assignment of [Result] releases what the target held: for
    two different objects, a target that holds the result set [h'] and a
    source that does not, the assignment passes [h'] to
    [mysql_free_result] once, and destroying both objects afterwards, in
    either order, does not release it again. *)
Theorem Result_move_assign_releases_target
    this r (objs : gmap nat Result) src dst h' w :
  this <> r ->
  objs !! r = Some src -> objs !! this = Some dst ->
  res dst = Some h' -> res src <> Some h' ->
  (forall tr, mysql_free_result lib tr = Returns tt) ->
  exists objs' w',
    Result_move_assign lib this r objs w = Done objs' w' /\
    trace w' = trace w ++ [Call_mysql_free_result (Some h')] /\
    res <$> objs' !! this = Some (res src) /\
    one_more_call (frees_result h') w
      (Result_destroy_both lib r this objs' w') /\
    one_more_call (frees_result h') w
      (Result_destroy_both lib this r objs' w').
Proof.
  intros Hne Hr Hthis Hdst Hsrc Hfree.
  eexists _, _. split.
  { apply (Result_move_assign_run lib this r objs src dst w Hne Hr Hthis).
    apply Hfree. }
  cbn [trace]. rewrite Hdst. split; [reflexivity|].
  assert (forall (m : gmap nat Result) (x y : Result),
            <[r := x]> (<[this := y]> m) !! this = Some y) as Hl1.
  { intros m x y. rewrite lookup_insert_ne by (apply not_eq_sym; exact Hne).
    apply lookup_insert_eq. }
  rewrite Hl1. split; [reflexivity|].
  unfold one_more_call. split.
  - rewrite (Result_destroy_both_count _ r this _ _ h' _
               (not_eq_sym Hne) (lookup_insert_eq _ _ _) (Hl1 _ _ _) Hfree).
    cbn [res trace]. rewrite count_calls_snoc, frees_result_same.
    rewrite decide_False by discriminate.
    rewrite decide_False by exact Hsrc. lia.
  - rewrite (Result_destroy_both_count _ this r _ _ h' _
               Hne (Hl1 _ _ _) (lookup_insert_eq _ _ _) Hfree).
    cbn [res trace]. rewrite count_calls_snoc, frees_result_same.
    rewrite decide_False by exact Hsrc.
    rewrite decide_False by discriminate. lia.
Qed.

(** X20.  Move assignment of [Stmt] does not release what the target
    held: for two different objects, a target that holds the statement
    [h'] and a source that does not, no object holds [h'] after the
    assignment, and destroying both objects, in either order, never
    passes [h'] to [mysql_stmt_close]. *)
Theorem Stmt_move_assign_leaks_target
    this x (objs : gmap nat Stmt) src dst h' w :
  this <> x ->
  objs !! x = Some src -> objs !! this = Some dst ->
  stmt dst = Some h' -> stmt src <> Some h' ->
  exists objs',
    Stmt_move_assign this x objs = Some objs' /\
    stmt <$> objs' !! this = Some (stmt src) /\
    stmt <$> objs' !! x = Some None /\
    count_calls (closes_stmt h')
      (trace (final_world (Stmt_destroy_both lib x this objs' w))) =
      count_calls (closes_stmt h') (trace w) /\
    count_calls (closes_stmt h')
      (trace (final_world (Stmt_destroy_both lib this x objs' w))) =
      count_calls (closes_stmt h') (trace w).
Proof.
  intros Hne Hx Hthis Hdst Hsrc.
  eexists. split.
  { apply (Stmt_move_assign_run this x objs src dst Hne Hx Hthis). }
  assert (forall (m : gmap nat Stmt) (a b : Stmt),
            <[x := a]> (<[this := b]> m) !! this = Some b) as Hl1.
  { intros m a b. rewrite lookup_insert_ne by (apply not_eq_sym; exact Hne).
    apply lookup_insert_eq. }
  rewrite Hl1, lookup_insert_eq. cbn [fmap option_fmap option_map stmt].
  split; [reflexivity|]. split; [reflexivity|]. split.
  - apply (Stmt_destroy_both_count _ x this _ _ h' w (not_eq_sym Hne)
             (lookup_insert_eq _ _ _) (Hl1 _ _ _)).
    + discriminate.
    + exact Hsrc.
  - apply (Stmt_destroy_both_count _ this x _ _ h' w Hne
             (Hl1 _ _ _) (lookup_insert_eq _ _ _)).
    + exact Hsrc.
    + discriminate.
Qed.

(** X21.  Assigning an object to itself.  A [Stmt] that holds a handle
    ends up without handle and without parameter array, and neither the
    assignment nor the destructor closes the statement.  A [Result] that
    holds a handle has it released by the assignment and ends up empty,
    so its destructor makes no further call. *)
Theorem self_move_assign a h w :
  (forall (objs : gmap nat Stmt) o,
     objs !! a = Some o -> stmt o = Some h ->
     exists objs',
       Stmt_move_assign a a objs = Some objs' /\
       stmt <$> objs' !! a = Some None /\
       params <$> objs' !! a = Some None /\
       trace (final_world (Stmt_destroy lib a objs' w)) = trace w)
  /\
  (forall (objs : gmap nat Result) o,
     objs !! a = Some o -> res o = Some h ->
     trace (final_world (Result_move_assign lib a a objs w)) =
       trace w ++ [Call_mysql_free_result (Some h)] /\
     forall objs' w',
       Result_move_assign lib a a objs w = Done objs' w' ->
       res <$> objs' !! a = Some None /\
       trace (final_world (Result_destroy lib a objs' w')) = trace w').
Proof.
  split.
  - intros objs o Ho Hh. unfold Stmt_move_assign. rewrite Ho.
    cbn [mbind option_bind].
    repeat (rewrite ?lookup_insert_eq, ?insert_insert_eq;
            cbn [mbind option_bind stmt count params str_length]).
    eexists. split; [reflexivity|]. rewrite lookup_insert_eq.
    cbn [fmap option_fmap option_map stmt params].
    split; [reflexivity|]. split; [reflexivity|].
    unfold Stmt_destroy. rewrite lookup_insert_eq.
    unfold Stmt_dtor. cbn [stmt is_null]. reflexivity.
  - intros objs o Ho Hh. unfold Result_move_assign. rewrite Ho, Hh.
    unfold bind, call. cbn [trace cerr].
    destruct (mysql_free_result lib _); cbn [final_world trace].
    2:{ split; [reflexivity|]. discriminate. }
    unfold set_res, set_num_fields. rewrite Ho. cbn [mbind option_bind].
    repeat (rewrite ?lookup_insert_eq, ?insert_insert_eq;
            cbn [mbind option_bind res num_fields]).
    unfold ret. cbn [final_world trace]. split; [reflexivity|].
    intros objs' w' H. injection H as <- <-. rewrite lookup_insert_eq.
    cbn [fmap option_fmap option_map res]. split; [reflexivity|].
    unfold Result_destroy. rewrite lookup_insert_eq.
    unfold Result_dtor. cbn [res is_null]. reflexivity.
Qed.

End MoveWhole.

Section MoveWholeRuns.
Import Native Wrapper Scenario Samples.

Lemma Result_move_assign_releases_target_witness :
  exists objs' w',
    Result_move_assign (client failing) 1 0 two_owning_Results start
      = Done objs' w' /\
    trace w' = trace start ++ [Call_mysql_free_result (Some 4%nat)] /\
    res <$> objs' !! 1%nat = Some (res owning_Result) /\
    one_more_call (frees_result 4) start
      (Result_destroy_both (client failing) 0 1 objs' w') /\
    one_more_call (frees_result 4) start
      (Result_destroy_both (client failing) 1 0 objs' w').
Proof.
  apply (Result_move_assign_releases_target (client failing) 1%nat 0%nat
           two_owning_Results owning_Result other_Result 4%nat start).
  - discriminate.
  - reflexivity.
  - reflexivity.
  - reflexivity.
  - discriminate.
  - intros tr. reflexivity.
Defined.

Lemma Stmt_move_assign_leaks_target_witness :
  exists objs',
    Stmt_move_assign 1 0 two_owning_Stmts = Some objs' /\
    stmt <$> objs' !! 1%nat = Some (stmt owning_Stmt) /\
    stmt <$> objs' !! 0%nat = Some None /\
    count_calls (closes_stmt 4)
      (trace (final_world
                (Stmt_destroy_both (client failing) 0 1 objs' start))) =
      count_calls (closes_stmt 4) (trace start) /\
    count_calls (closes_stmt 4)
      (trace (final_world
                (Stmt_destroy_both (client failing) 1 0 objs' start))) =
      count_calls (closes_stmt 4) (trace start).
Proof.
  apply (Stmt_move_assign_leaks_target (client failing) 1%nat 0%nat
           two_owning_Stmts owning_Stmt other_Stmt 4%nat start).
  - discriminate.
  - reflexivity.
  - reflexivity.
  - reflexivity.
  - discriminate.
Defined.

Lemma self_move_assign_witness :
  (exists objs',
     Stmt_move_assign 0 0 two_owning_Stmts = Some objs' /\
     stmt <$> objs' !! 0%nat = Some None /\
     params <$> objs' !! 0%nat = Some None /\
     trace (final_world (Stmt_destroy (client failing) 0 objs' start))
       = trace start)
  /\
  (trace (final_world
            (Result_move_assign (client failing) 0 0 two_owning_Results start))
     = trace start ++ [Call_mysql_free_result (Some 3%nat)]).
Proof.
  destruct (self_move_assign (client failing) 0%nat 3%nat start) as [Hs Hr].
  split.
  - apply (Hs two_owning_Stmts owning_Stmt); reflexivity.
  - apply (Hr two_owning_Results owning_Result); reflexivity.
Defined.

End MoveWholeRuns.

(** ** A query and the lifetime of its result *)

Section QueryLifetime.
Import Native Wrapper.

Variable lib : library.

Ltac next_call H :=
  unfold bind at 1, call at 1; cbn [trace cerr]; rewrite H;
  cbv beta iota; cbn [trace cerr].

(** X22.  The [Result] of a query owns its result set: when the query
    succeeds with the result set [r], destroying the [Result] returned
    passes [r] to [mysql_free_result] exactly once; when the query fails,
    destroying the [Result] returned makes no native call at all. *)
Theorem query_then_destroy (this : mysql) (s : list ascii) (w : world) :
  let q := Call_mysql_real_query (handle this) s (Z.of_nat (length s)) in
  let u := Call_mysql_use_result (handle this) in
  let e := Call_mysql_error (handle this) in
  (forall r n,
     mysql_real_query lib (trace w ++ [q]) = Returns 0 ->
     mysql_use_result lib ((trace w ++ [q]) ++ [u]) = Returns (Some r) ->
     mysql_num_fields lib
       (((trace w ++ [q]) ++ [u]) ++ [Call_mysql_num_fields (Some r)])
       = Returns n ->
     trace (final_world ((result <- query lib this s ;;
                          Result_dtor lib result) w)) =
       (((trace w ++ [q]) ++ [u]) ++ [Call_mysql_num_fields (Some r)])
         ++ [Call_mysql_free_result (Some r)]
     /\ one_more_call (frees_result r) w
          ((result <- query lib this s ;; Result_dtor lib result) w))
  /\
  (forall x msg,
     mysql_real_query lib (trace w ++ [q]) = Returns x ->
     x <> 0 ->
     mysql_error lib ((trace w ++ [q]) ++ [e]) = Returns msg ->
     (result <- query lib this s ;; Result_dtor lib result) w =
       Done tt {| trace := (trace w ++ [q]) ++ [e];
                  cerr := cerr w ++ query_failed ++ msg ++ endl |}).
Proof.
  cbv zeta. split.
  - intros r n Hq Hu Hn.
    assert (query lib this s w =
            Done {| res := Some r; num_fields := to_int n |}
                 {| trace := ((trace w ++
                      [Call_mysql_real_query (handle this) s
                         (Z.of_nat (length s))]) ++
                      [Call_mysql_use_result (handle this)]) ++
                      [Call_mysql_num_fields (Some r)];
                    cerr := cerr w |}) as Hrun.
    { unfold query. next_call Hq. cbn [Z.eqb negb]. unfold use_result.
      next_call Hu. cbn [is_null]. unfold bind at 1, ret at 1.
      unfold Result_from. next_call Hn. reflexivity. }
    assert (trace (final_world ((result <- query lib this s ;;
                                 Result_dtor lib result) w)) =
            (((trace w ++
                [Call_mysql_real_query (handle this) s (Z.of_nat (length s))])
               ++ [Call_mysql_use_result (handle this)])
               ++ [Call_mysql_num_fields (Some r)])
              ++ [Call_mysql_free_result (Some r)]) as Htrace.
    { unfold bind. rewrite Hrun. unfold Result_dtor, call.
      cbn [res is_null trace cerr].
      destruct (mysql_free_result lib _); reflexivity. }
    split; [exact Htrace|]. unfold one_more_call. rewrite Htrace.
    rewrite !count_calls_snoc, frees_result_same. cbn [frees_result]. lia.
  - intros x msg Hq Hx He. unfold bind at 1.
    rewrite (query_failure_prints_error lib this s w x msg Hq Hx He).
    reflexivity.
Qed.

End QueryLifetime.

Section QueryLifetimeRuns.
Import Native Wrapper Scenario Samples.

Lemma query_then_destroy_witness :
  (trace (final_world
            ((result <- query (client serving) open_connection sql_do ;;
              Result_dtor (client serving) result) start)) =
     [Call_mysql_real_query (Some 1%nat) sql_do 4;
      Call_mysql_use_result (Some 1%nat);
      Call_mysql_num_fields (Some 9%nat);
      Call_mysql_free_result (Some 9%nat)]
   /\ one_more_call (frees_result 9) start
        ((result <- query (client serving) open_connection sql_do ;;
          Result_dtor (client serving) result) start))
  /\
  (result <- query (client failing) open_connection sql_do ;;
   Result_dtor (client failing) result) start =
    Done tt {| trace := [Call_mysql_real_query (Some 1%nat) sql_do 4;
                         Call_mysql_error (Some 1%nat)];
               cerr := query_failed ++ gone_away ++ endl |}.
Proof.
  split.
  - destruct (query_then_destroy (client serving) open_connection sql_do start)
      as [H _].
    apply (H 9%nat 2); reflexivity.
  - destruct (query_then_destroy (client failing) open_connection sql_do start)
      as [_ H].
    apply (H 1 gone_away); [reflexivity|discriminate|reflexivity].
Defined.

Lemma connect_failure_prints_error_witness :
  connect (client failing) {| handle := None |} local_args start =
  Done (false, {| handle := None |})
       {| trace := [Call_mysql_init;
                    Call_mysql_real_connect (Some 1%nat) local_args;
                    Call_mysql_error (Some 1%nat);
                    Call_mysql_close (Some 1%nat)];
          cerr := connect_failed ++ gone_away ++ endl |}.
Proof.
  apply (connect_failure_prints_error (client failing) local_args start
           1%nat gone_away); reflexivity.
Defined.

End QueryLifetimeRuns.
